(** * LSP client core of mcp-language-server: a shallow embedding

    The development follows the Go package [lsp] (client lifecycle and
    document synchronisation) and the naming of server configurations in
    [main].  Client methods are state-passing functions over a [Client]
    record; the operating system (file reads, the child's stdin, the
    server's answers) is an explicit [World] oracle; the goroutines of
    [Close] are a small transition system. *)

From Stdlib Require Import ZArith Lia Ascii String.
From stdpp Require Import base gmap strings list fin_maps.

Local Open Scope string_scope.
Local Open Scope Z_scope.
Local Open Scope list_scope.
Local Set Warnings "-register-all".

(** ** Go scalars and strings *)

Module Go.

(** [int32]: two's complement wrap-around of a mathematical integer. *)
Definition int32 (z : Z) : Z := (z + 2147483648) mod 4294967296 - 2147483648.

Definition MaxInt32 : Z := 2147483647.
Definition MinInt32 : Z := -2147483648.

(** [strings.HasPrefix]. *)
Fixpoint HasPrefix (s p : string) {struct p} : bool :=
  match p, s with
  | EmptyString, _ => true
  | String a p', String b s' => if Ascii.eqb a b then HasPrefix s' p' else false
  | String _ _, EmptyString => false
  end.

Fixpoint drop_bytes (n : nat) (s : string) : string :=
  match n, s with
  | O, _ => s
  | S n', String _ s' => drop_bytes n' s'
  | S _, EmptyString => EmptyString
  end.

(** [strings.TrimPrefix]: [s] without the leading [p], or [s] itself. *)
Definition TrimPrefix (s p : string) : string :=
  if HasPrefix s p then drop_bytes (String.length p) s else s.

(** [strings.Contains]. *)
Fixpoint Contains (s sub : string) : bool :=
  HasPrefix s sub ||
  match s with
  | EmptyString => false
  | String _ s' => Contains s' sub
  end.

(** [strings.ToLower] on ASCII text (executable paths are taken to be
    ASCII; bytes outside A-Z are kept). *)
Definition lower_byte (a : ascii) : ascii :=
  let n := nat_of_ascii a in
  if (Nat.leb 65 n && Nat.leb n 90)%bool then ascii_of_nat (n + 32) else a.

Fixpoint ToLower (s : string) : string :=
  match s with
  | EmptyString => EmptyString
  | String a s' => String (lower_byte a) (ToLower s')
  end.

End Go.

(** ** Errors, JSON values and messages *)

(** Go [error] values: [None] is [nil]. *)
Inductive error :=
| OsError (path : string)              (* failure of os.ReadFile *)
| WriteError (attempt : nat)           (* failed write to the child's stdin *)
| CallError (id : Z)                   (* no usable response for a request *)
| Errorf (msg : string)                (* fmt.Errorf without a wrapped cause *)
| Errorw (msg : string) (cause : error). (* fmt.Errorf("msg: %w", cause) *)

(** Values of Go's [any] as they occur in configuration and payloads. *)
Inductive any :=
| ANull
| ABool (b : bool)
| ANumber (z : Z)
| AString (s : string)
| AArray (l : list any)
| AObject (fields : list (string * any))
| AMapBool (m : gmap string bool).

Record Diagnostic := { Message_ : string; Severity : Z }.

Record WorkspaceFolder := { wfURI : string; wfName : string }.

(** The capability literal of [InitializeLSPClient]. *)
Record ClientCapabilities := {
  Workspace_Configuration : bool;
  Workspace_DidChangeConfiguration_DynamicRegistration : bool;
  Workspace_DidChangeWatchedFiles_DynamicRegistration : bool;
  Workspace_DidChangeWatchedFiles_RelativePatternSupport : bool;
  TextDocument_Synchronization_DynamicRegistration : bool;
  TextDocument_Synchronization_DidSave : bool;
  TextDocument_CodeLens_DynamicRegistration : bool;
  TextDocument_PublishDiagnostics_VersionSupport : bool
}.

Record InitializeParams := {
  WorkspaceFolders : list WorkspaceFolder;
  ProcessID : Z;
  ClientInfo_Name : string;
  ClientInfo_Version : string;
  RootPath : string;
  RootURI : string;
  Capabilities : ClientCapabilities;
  InitializationOptions : gmap string any
}.

Record TextDocumentItem := {
  tdURI : string; LanguageID : string; tdVersion : Z; Text : string
}.

(** Parameters of the messages this client writes. *)
Inductive Params :=
| PInitialize (p : InitializeParams)
| PEmptyStruct                                   (* struct{}{} *)
| PInitialized                                   (* protocol.InitializedParams{} *)
| PDidOpen (item : TextDocumentItem)
| PDidChange (uri : string) (version : Z) (text : string)
| PDidClose (uri : string)
| POther (v : any).

Inductive Message :=
| Request (id : Z) (method : string) (params : Params)
| Notification (method : string) (params : Params).

Inductive ServerRequestHandler :=
| HandleApplyEdit | HandleWorkspaceConfiguration | HandleRegisterCapability.

Inductive NotificationHandler :=
| HandleServerMessage | HandleDiagnosticsOf.

(** ** The client *)

Record OpenFileInfo := { Version : Z; URI : string }.

Record Client := {
  CmdPath : string;
  nextID : Z;
  handlers : gmap Z unit;
  serverRequestHandlers : gmap string ServerRequestHandler;
  notificationHandlers : gmap string NotificationHandler;
  diagnostics : gmap string (list Diagnostic);
  openFiles : gmap string OpenFileInfo;
  (* every write attempted on the child's stdin, oldest first, with
     whether it went through *)
  wire : list (Message * bool)
}.

Definition set_nextID (v : Z) (c : Client) : Client :=
  {| CmdPath := CmdPath c; nextID := v; handlers := handlers c;
     serverRequestHandlers := serverRequestHandlers c;
     notificationHandlers := notificationHandlers c;
     diagnostics := diagnostics c; openFiles := openFiles c; wire := wire c |}.

Definition set_handlers (v : gmap Z unit) (c : Client) : Client :=
  {| CmdPath := CmdPath c; nextID := nextID c; handlers := v;
     serverRequestHandlers := serverRequestHandlers c;
     notificationHandlers := notificationHandlers c;
     diagnostics := diagnostics c; openFiles := openFiles c; wire := wire c |}.

Definition set_serverRequestHandlers (v : gmap string ServerRequestHandler)
    (c : Client) : Client :=
  {| CmdPath := CmdPath c; nextID := nextID c; handlers := handlers c;
     serverRequestHandlers := v;
     notificationHandlers := notificationHandlers c;
     diagnostics := diagnostics c; openFiles := openFiles c; wire := wire c |}.

Definition set_notificationHandlers (v : gmap string NotificationHandler)
    (c : Client) : Client :=
  {| CmdPath := CmdPath c; nextID := nextID c; handlers := handlers c;
     serverRequestHandlers := serverRequestHandlers c;
     notificationHandlers := v;
     diagnostics := diagnostics c; openFiles := openFiles c; wire := wire c |}.


Definition set_openFiles (v : gmap string OpenFileInfo) (c : Client) : Client :=
  {| CmdPath := CmdPath c; nextID := nextID c; handlers := handlers c;
     serverRequestHandlers := serverRequestHandlers c;
     notificationHandlers := notificationHandlers c;
     diagnostics := diagnostics c; openFiles := v; wire := wire c |}.

Definition set_wire (v : list (Message * bool)) (c : Client) : Client :=
  {| CmdPath := CmdPath c; nextID := nextID c; handlers := handlers c;
     serverRequestHandlers := serverRequestHandlers c;
     notificationHandlers := notificationHandlers c;
     diagnostics := diagnostics c; openFiles := openFiles c; wire := v |}.

(** [NewClient]: the literal of line 69, all maps made empty and the
    counter at its zero value. *)
Definition NewClient (command : string) : Client :=
  {| CmdPath := command; nextID := 0; handlers := ∅;
     serverRequestHandlers := ∅; notificationHandlers := ∅;
     diagnostics := ∅; openFiles := ∅; wire := [] |}.

(** Messages that reached the server. *)
Definition delivered (l : list (Message * bool)) : list Message :=
  (filter (λ e : Message * bool, e.2 = true) l).*1.

Definition sent (c : Client) : list Message := delivered (wire c).

Global Arguments delivered : simpl never.

Definition is_notification (m : string) (msg : Message) : bool :=
  match msg with
  | Notification m' _ => if decide (m' = m) then true else false
  | Request _ _ _ => false
  end.

Definition is_request (m : string) (msg : Message) : bool :=
  match msg with
  | Request _ m' _ => if decide (m' = m) then true else false
  | Notification _ _ => false
  end.

Definition count_notifications (m : string) (l : list Message) : nat :=
  length (filter (λ msg, is_notification m msg = true) l).

Definition count_requests (m : string) (l : list Message) : nat :=
  length (filter (λ msg, is_request m msg = true) l).

(** ** The world outside the client *)

Record World := {
  (* os.ReadFile: the content, or [None] when the read fails *)
  ReadFile : string → option string;
  (* whether the n-th write to the child's stdin succeeds *)
  writeOk : nat → bool;
  (* the server's answer to a request: a result payload, an error
     object, or nothing before the caller gives up *)
  reply : Z → string → option (error + any);
  Getpid : Z;
  DetectLanguageID : string → string;
  (* iteration order of [range] over the open-file map *)
  rangeKeys : gmap string OpenFileInfo → list string;
  (* server-specific post-initialisation of the TypeScript server *)
  initializeTypescriptLanguageServer : Client → string → option error * Client
}.

(** ** Transport operations *)

(** Modelled from the spec: [Client.Notify] is defined in the transport
    file, which is not part of the sources at hand.  "Fire-and-forget
    send, no id, no waiter -- returns once the write completes (or fails
    on transport error)." *)
Definition Notify (w : World) (c : Client) (method : string) (params : Params)
    : option error * Client :=
  let n := length (wire c) in
  let ok := writeOk w n in
  let c' := set_wire (wire c ++ [(Notification method params, ok)]) c in
  if ok then (None, c') else (Some (WriteError n), c').

(** Modelled from the spec: the first half of [Client.Call] (transport
    file, absent): "allocates the next id, stores a PendingCall, sends
    the Request".  The id is the new value of the atomically incremented
    [nextID], an [atomic.Int32]. *)
Definition Call_start (w : World) (c : Client) (method : string) (params : Params)
    : Z * option error * Client :=
  let id := Go.int32 (nextID c + 1) in
  let c1 := set_handlers (<[id := ()]> (handlers c)) (set_nextID id c) in
  let n := length (wire c1) in
  let ok := writeOk w n in
  let c2 := set_wire (wire c1 ++ [(Request id method params, ok)]) c1 in
  (id, if ok then None else Some (WriteError n), c2).

(** Modelled from the spec: the end of a call, on response, cancellation
    or connection loss: "the PendingCall is removed". *)
Definition Call_finish (c : Client) (id : Z) : Client :=
  set_handlers (delete id (handlers c)) c.

(** Modelled from the spec: [Client.Call], which "blocks until either
    (a) the read loop delivers a matching Response, (b) the caller's
    context is canceled/expires, or (c) the connection terminates"; an
    error object in the response is "surfaced to the caller". *)
Definition Call (w : World) (c : Client) (method : string) (params : Params)
    : (error + any) * Client :=
  match Call_start w c method params with
  | (id, Some err, c1) => (inl err, Call_finish c1 id)
  | (id, None, c1) =>
      match reply w id method with
      | Some (inr payload) => (inr payload, Call_finish c1 id)
      | Some (inl err) => (inl err, Call_finish c1 id)
      | None => (inl (CallError id), Call_finish c1 id)
      end
  end.

(** Modelled from the spec: [Client.Initialized] belongs to the protocol
    method wrappers, which are not part of the sources at hand.  Its call
    site reads "Notify the LSP server", and the handshake is "the
    initialize/initialized request-notification pair": the wrapper
    notifies [initialized] with the parameters it is given. *)
Definition Initialized (w : World) (c : Client) (params : Params)
    : option error * Client :=
  Notify w c "initialized" params.

Definition RegisterNotificationHandler (c : Client) (method : string)
    (handler : NotificationHandler) : Client :=
  set_notificationHandlers (<[method := handler]> (notificationHandlers c)) c.

Definition RegisterServerRequestHandler (c : Client) (method : string)
    (handler : ServerRequestHandler) : Client :=
  set_serverRequestHandlers (<[method := handler]> (serverRequestHandlers c)) c.

(** ** Handshake *)

Definition default_codelenses : gmap string bool :=
  <["generate" := true]> (<["regenerate_cgo" := true]> (<["test" := true]>
  (<["tidy" := true]> (<["upgrade_dependency" := true]> (<["vendor" := true]>
  (<["vulncheck" := false]> ∅)))))).

Definition default_options : gmap string any :=
  {[ "codelenses" := AMapBool default_codelenses ]}.

(** [customConfig] is a Go map: [None] is the nil map. *)
Definition getInitializationOptions (customConfig : option (gmap string any))
    : gmap string any :=
  match customConfig with
  | Some m => if decide (0 < size m)%nat then m else default_options
  | None => default_options
  end.

Definition capabilities : ClientCapabilities :=
  {| Workspace_Configuration := true;
     Workspace_DidChangeConfiguration_DynamicRegistration := true;
     Workspace_DidChangeWatchedFiles_DynamicRegistration := true;
     Workspace_DidChangeWatchedFiles_RelativePatternSupport := true;
     TextDocument_Synchronization_DynamicRegistration := true;
     TextDocument_Synchronization_DidSave := true;
     TextDocument_CodeLens_DynamicRegistration := true;
     TextDocument_PublishDiagnostics_VersionSupport := true |}.

Definition initParams (w : World) (workspaceDir : string)
    (customConfig : option (gmap string any)) : InitializeParams :=
  {| WorkspaceFolders :=
       [ {| wfURI := "file://" +:+ workspaceDir; wfName := workspaceDir |} ];
     ProcessID := Go.int32 (Getpid w);
     ClientInfo_Name := "mcp-language-server";
     ClientInfo_Version := "0.1.0";
     RootPath := workspaceDir;
     RootURI := "file://" +:+ workspaceDir;
     Capabilities := capabilities;
     InitializationOptions := getInitializationOptions customConfig |}.

Definition register_handlers (c : Client) : Client :=
  let c := RegisterServerRequestHandler c "workspace/applyEdit" HandleApplyEdit in
  let c := RegisterServerRequestHandler c "workspace/configuration"
             HandleWorkspaceConfiguration in
  let c := RegisterServerRequestHandler c "client/registerCapability"
             HandleRegisterCapability in
  let c := RegisterNotificationHandler c "window/showMessage" HandleServerMessage in
  RegisterNotificationHandler c "textDocument/publishDiagnostics" HandleDiagnosticsOf.

(** The result is the decoded payload of the server's response. *)
Definition InitializeLSPClient (w : World) (c : Client) (workspaceDir : string)
    (customConfig : option (gmap string any)) : (error + any) * Client :=
  match Call w c "initialize" (PInitialize (initParams w workspaceDir customConfig)) with
  | (inl err, c1) => (inl (Errorw "initialize failed" err), c1)
  | (inr result, c1) =>
      match Notify w c1 "initialized" PEmptyStruct with
      | (Some err, c2) => (inl (Errorw "initialized notification failed" err), c2)
      | (None, c2) =>
          let c3 := register_handlers c2 in
          match Initialized w c3 PInitialized with
          | (Some err, c4) => (inl (Errorw "initialization failed" err), c4)
          | (None, c4) =>
              let path := Go.ToLower (CmdPath c4) in
              if Go.Contains path "typescript-language-server" then
                match initializeTypescriptLanguageServer w c4 workspaceDir with
                | (Some err, c5) => (inl err, c5)
                | (None, c5) => (inr result, c5)
                end
              else (inr result, c4)
          end
      end
  end.

(** ** Document synchronisation *)

Definition file_uri (filepath : string) : string := "file://" +:+ filepath.

Definition OpenFile (w : World) (c : Client) (filepath : string)
    : option error * Client :=
  let uri := file_uri filepath in
  match openFiles c !! uri with
  | Some _ => (None, c)
  | None =>
      match ReadFile w filepath with
      | None => (Some (Errorw "error reading file" (OsError filepath)), c)
      | Some content =>
          let params := PDidOpen {| tdURI := uri; LanguageID := DetectLanguageID w uri;
                                    tdVersion := 1; Text := content |} in
          match Notify w c "textDocument/didOpen" params with
          | (Some err, c1) => (Some err, c1)
          | (None, c1) =>
              (None, set_openFiles
                       (<[uri := {| Version := 1; URI := uri |}]> (openFiles c1)) c1)
          end
      end
  end.

Definition NotifyChange (w : World) (c : Client) (filepath : string)
    : option error * Client :=
  let uri := file_uri filepath in
  match ReadFile w filepath with
  | None => (Some (Errorw "error reading file" (OsError filepath)), c)
  | Some content =>
      match openFiles c !! uri with
      | None =>
          (Some (Errorf ("cannot notify change for unopened file: " +:+ filepath)), c)
      | Some fileInfo =>
          let version := Go.int32 (Version fileInfo + 1) in
          let c1 := set_openFiles
                      (<[uri := {| Version := version; URI := URI fileInfo |}]>
                         (openFiles c)) c in
          Notify w c1 "textDocument/didChange" (PDidChange uri version content)
      end
  end.

Definition CloseFile (w : World) (c : Client) (filepath : string)
    : option error * Client :=
  let uri := file_uri filepath in
  match openFiles c !! uri with
  | None => (None, c)
  | Some _ =>
      match Notify w c "textDocument/didClose" (PDidClose uri) with
      | (Some err, c1) => (Some err, c1)
      | (None, c1) => (None, set_openFiles (delete uri (openFiles c1)) c1)
      end
  end.

Definition IsFileOpen (c : Client) (filepath : string) : bool :=
  match openFiles c !! file_uri filepath with Some _ => true | None => false end.

(** The loop of [CloseAllFiles] over the collected paths; an error of
    [CloseFile] is logged and the loop goes on. *)
Fixpoint close_each (w : World) (c : Client) (filesToClose : list string) : Client :=
  match filesToClose with
  | [] => c
  | filePath :: rest => close_each w (CloseFile w c filePath).2 rest
  end.

Definition CloseAllFiles (w : World) (c : Client) : Client :=
  let filesToClose :=
    map (λ uri, Go.TrimPrefix uri "file://") (rangeKeys w (openFiles c)) in
  close_each w c filesToClose.

(** ** Diagnostics cache *)

(** A read under the read lock: the client comes back as it was. *)
Definition GetFileDiagnostics (c : Client) (uri : string)
    : list Diagnostic * Client :=
  (default [] (diagnostics c !! uri), c).



(** ** Concrete worlds and clients used in examples *)

(** A cooperative server: every read of [/a.go] and every write succeeds,
    and each request is answered with the same payload. *)
Definition canned_payload : any :=
  AObject [("capabilities", AObject [("hoverProvider", ABool true)])].

Definition good_world : World :=
  {| ReadFile := λ p, if decide (p = "/a.go") then Some "package a" else None;
     writeOk := λ _, true;
     reply := λ _ _, Some (inr canned_payload);
     Getpid := 4242;
     DetectLanguageID := λ _, "go";
     rangeKeys := λ m, (map_to_list m).*1;
     initializeTypescriptLanguageServer := λ c _, (None, c) |}.

(** The same machine with a child whose stdin rejects every write. *)
Definition broken_pipe_world : World :=
  {| ReadFile := ReadFile good_world;
     writeOk := λ _, false;
     reply := reply good_world;
     Getpid := Getpid good_world;
     DetectLanguageID := DetectLanguageID good_world;
     rangeKeys := rangeKeys good_world;
     initializeTypescriptLanguageServer :=
       initializeTypescriptLanguageServer good_world |}.

Definition gopls_client : Client := NewClient "/usr/bin/gopls".

(** [/a.go] open at the given version. *)
Definition client_with_a (v : Z) : Client :=
  set_openFiles {[ "file:///a.go" := {| Version := v; URI := "file:///a.go" |} ]}
    gopls_client.

(** ** Sequences of synchroniser calls *)

(** What a caller such as the workspace watcher may ask for. *)
Inductive sync_op :=
| DoOpen (filepath : string)
| DoChange (filepath : string)
| DoClose (filepath : string)
| DoCloseAll.

Definition apply_op (w : World) (c : Client) (op : sync_op) : Client :=
  match op with
  | DoOpen p => (OpenFile w c p).2
  | DoChange p => (NotifyChange w c p).2
  | DoClose p => (CloseFile w c p).2
  | DoCloseAll => CloseAllFiles w c
  end.

Definition run_ops (w : World) (c : Client) (ops : list sync_op) : Client :=
  foldl (apply_op w) c ops.



(** The parts of a client the synchroniser has no business with. *)
Definition rest_of_client (c : Client)
    : string * Z * gmap Z unit * gmap string ServerRequestHandler *
      gmap string NotificationHandler * gmap string (list Diagnostic) :=
  (CmdPath c, nextID c, handlers c, serverRequestHandlers c,
   notificationHandlers c, diagnostics c).

(** ** Calls in flight *)

(** Several callers may have a call outstanding: a call starts
    ([Call_start]) and ends later, on its response or when it is
    abandoned ([Call_finish]).  The atomic counter makes the starts take
    place one after the other. *)
Inductive call_event :=
| StartCall (method : string) (params : Params)
| FinishCall (id : Z).

(** The client, and for each id handed out whether a pending call was
    outstanding under that id at that moment. *)
Definition step_calls (w : World) (st : Client * list (Z * bool)) (ev : call_event)
    : Client * list (Z * bool) :=
  match ev with
  | StartCall m p =>
      let id := (Call_start w st.1 m p).1.1 in
      ((Call_start w st.1 m p).2,
       st.2 ++ [(id, bool_decide (is_Some (handlers st.1 !! id)))])
  | FinishCall id => (Call_finish st.1 id, st.2)
  end.


Fixpoint count_starts (evs : list call_event) : nat :=
  match evs with
  | [] => 0
  | StartCall _ _ :: evs' => S (count_starts evs')
  | FinishCall _ :: evs' => count_starts evs'
  end.

(** The ids of the requests written to the child, oldest first. *)
Definition request_ids (l : list (Message * bool)) : list Z :=
  omap (λ e : Message * bool,
          match e.1 with Request id _ _ => Some id | Notification _ _ => None end) l.





(** ** The shutdown race of [Close] *)

(** [Close] (lines 249-277) runs two goroutines against the child: the
    caller closes stdin, waits for the child and closes [forcedKill]; the
    watcher selects between the two-second timer and [forcedKill], and on
    the timer kills the child and closes [forcedKill] itself.  Statements
    are atomic steps, a schedule picks who moves. *)
Module CloseRace.

Inductive chan := ChanOpen | ChanClosed.

Inductive main_pc :=
| MCloseStdin      (* about to run c.stdin.Close() *)
| MWait            (* blocked in c.Cmd.Wait() *)
| MCloseChan       (* about to run close(forcedKill), line 275 *)
| MReturned        (* Close has returned the error of Wait *)
| MPanicked.       (* close of closed channel *)

Inductive watcher_pc :=
| WSelect          (* blocked in the select *)
| WKill            (* timer case taken: about to kill the child *)
| WCloseChan       (* about to run close(forcedKill), line 261 *)
| WReturned        (* goroutine finished *)
| WPanicked.       (* close of closed channel *)

Record state := {
  main : main_pc;
  watcher : watcher_pc;
  forcedKill : chan;
  stdin_closed : bool;
  timer_fired : bool;
  exited : bool
}.

Inductive action :=
| Main               (* the caller's goroutine runs its next statement *)
| WatcherTimer       (* the select takes the timer case *)
| WatcherChan        (* the select takes the forcedKill case *)
| Watcher            (* the watcher runs its next statement *)
| TimerFires         (* two seconds have passed *)
| ChildExits.        (* the child exits on its own *)

Definition init : state :=
  {| main := MCloseStdin; watcher := WSelect; forcedKill := ChanOpen;
     stdin_closed := false; timer_fired := false; exited := false |}.

Definition panicked (s : state) : bool :=
  match main s, watcher s with
  | MPanicked, _ | _, WPanicked => true
  | _, _ => false
  end.

(** One step; [None] when the action is not enabled.  [obedient] tells
    whether the child is one that exits by itself; such a child may do so
    at any moment, for instance on the [exit] notification that [cleanup]
    sends before it calls [Close].  A panic ends the program. *)
Definition step (obedient : bool) (a : action) (s : state) : option state :=
  if panicked s then None else
  match a with
  | Main =>
      match main s with
      | MCloseStdin =>
          Some {| main := MWait; watcher := watcher s; forcedKill := forcedKill s;
                  stdin_closed := true; timer_fired := timer_fired s;
                  exited := exited s |}
      | MWait =>
          if exited s then
            Some {| main := MCloseChan; watcher := watcher s;
                    forcedKill := forcedKill s; stdin_closed := stdin_closed s;
                    timer_fired := timer_fired s; exited := exited s |}
          else None
      | MCloseChan =>
          Some {| main := match forcedKill s with
                          | ChanOpen => MReturned | ChanClosed => MPanicked end;
                  watcher := watcher s; forcedKill := ChanClosed;
                  stdin_closed := stdin_closed s; timer_fired := timer_fired s;
                  exited := exited s |}
      | MReturned | MPanicked => None
      end
  | WatcherTimer =>
      match watcher s with
      | WSelect =>
          if timer_fired s then
            Some {| main := main s; watcher := WKill; forcedKill := forcedKill s;
                    stdin_closed := stdin_closed s; timer_fired := timer_fired s;
                    exited := exited s |}
          else None
      | _ => None
      end
  | WatcherChan =>
      match watcher s, forcedKill s with
      | WSelect, ChanClosed =>
          Some {| main := main s; watcher := WReturned; forcedKill := forcedKill s;
                  stdin_closed := stdin_closed s; timer_fired := timer_fired s;
                  exited := exited s |}
      | _, _ => None
      end
  | Watcher =>
      match watcher s with
      | WKill =>
          Some {| main := main s; watcher := WCloseChan; forcedKill := forcedKill s;
                  stdin_closed := stdin_closed s; timer_fired := timer_fired s;
                  exited := true |}
      | WCloseChan =>
          Some {| main := main s;
                  watcher := match forcedKill s with
                             | ChanOpen => WReturned | ChanClosed => WPanicked end;
                  forcedKill := ChanClosed; stdin_closed := stdin_closed s;
                  timer_fired := timer_fired s; exited := exited s |}
      | WSelect | WReturned | WPanicked => None
      end
  | TimerFires =>
      if timer_fired s then None else
      Some {| main := main s; watcher := watcher s; forcedKill := forcedKill s;
              stdin_closed := stdin_closed s; timer_fired := true;
              exited := exited s |}
  | ChildExits =>
      if (obedient && negb (exited s))%bool then
        Some {| main := main s; watcher := watcher s; forcedKill := forcedKill s;
                stdin_closed := stdin_closed s; timer_fired := timer_fired s;
                exited := true |}
      else None
  end.

(** A schedule runs from a state as far as all its actions are
    enabled. *)
Fixpoint run (obedient : bool) (sched : list action) (s : state) : option state :=
  match sched with
  | [] => Some s
  | a :: rest =>
      match step obedient a s with
      | Some s' => run obedient rest s'
      | None => None
      end
  end.

(** What holds of every state a stubborn child lets the two goroutines
    reach. *)
Definition stubborn_inv (s : state) : bool :=
  match watcher s with
  | WSelect | WKill =>
      match main s, forcedKill s, exited s with
      | (MCloseStdin | MWait), ChanOpen, false => true
      | _, _, _ => false
      end
  | WCloseChan =>
      match main s, forcedKill s, exited s with
      | (MCloseStdin | MWait | MCloseChan), ChanOpen, true => true
      | MReturned, ChanClosed, true => true
      | _, _, _ => false
      end
  | WReturned =>
      match main s, forcedKill s, exited s with
      | (MCloseStdin | MWait | MCloseChan | MPanicked), ChanClosed, true => true
      | _, _, _ => false
      end
  | WPanicked =>
      match main s, forcedKill s, exited s with
      | MReturned, ChanClosed, true => true
      | _, _, _ => false
      end
  end.

(** The timer fires while the caller waits; the watcher kills the child
    and closes the channel; the caller wakes up and closes it again. *)
Definition forced_kill_schedule : list action :=
  [Main; TimerFires; WatcherTimer; Watcher; Watcher; Main; Main].

End CloseRace.

(** ** Invariants of the shutdown race for any child *)

Module CloseRaceInv.
Import CloseRace.

Definition main_past_wait (s : state) : bool :=
  match main s with MCloseChan | MReturned | MPanicked => true | _ => false end.

Definition main_closed_chan (s : state) : bool :=
  match main s with MReturned | MPanicked => true | _ => false end.

Definition watcher_closed_chan (s : state) : bool :=
  match watcher s with WReturned | WPanicked => true | _ => false end.

Definition chan_closed (s : state) : bool :=
  match forcedKill s with ChanClosed => true | ChanOpen => false end.

(** What holds of every state the two goroutines can reach, whatever the
    child does. *)
Definition safe_inv (obedient : bool) (s : state) : bool :=
  (* stdin is closed exactly once the caller is past its first statement *)
  eqb (stdin_closed s) (match main s with MCloseStdin => false | _ => true end) &&
  (* Wait lets the caller through only when the child is gone *)
  implb (main_past_wait s) (exited s) &&
  (* the watcher is on its timer branch only when the timer has fired *)
  implb (match watcher s with WKill | WCloseChan | WPanicked => true | _ => false end)
        (timer_fired s) &&
  implb (match watcher s with WCloseChan | WPanicked => true | _ => false end)
        (exited s) &&
  (* the child is gone by itself or was killed *)
  implb (exited s) (obedient || timer_fired s) &&
  (* the channel is closed exactly when somebody has closed it *)
  eqb (chan_closed s) (main_closed_chan s || watcher_closed_chan s) &&
  (* a watcher that is done while the caller has not closed the channel
     went through its timer branch *)
  implb (watcher_closed_chan s && negb (main_closed_chan s)) (timer_fired s) &&
  (* a panic is the second close *)
  implb (match main s with MPanicked => true | _ => false end)
        (match watcher s with WReturned => timer_fired s | _ => false end) &&
  implb (match watcher s with WPanicked => true | _ => false end)
        (match main s with MReturned => true | _ => false end).

(** The child exits once its stdin is closed; the caller wakes up, closes
    the channel and returns; the watcher sees the closed channel. *)
Definition clean_schedule : list action :=
  [Main; ChildExits; Main; Main; WatcherChan].

(** The child exits by itself, but the timer fires before the caller has
    closed the channel: the watcher takes its timer branch all the same. *)
Definition late_timer_schedule : list action :=
  [Main; ChildExits; Main; TimerFires; WatcherTimer; Watcher; Watcher; Main].

End CloseRaceInv.

(** ** Naming the server's configuration *)

(** Go strings as byte lists, for [path/filepath] on Unix. *)
Module Filepath.

Definition slash : ascii := "/"%char.
Definition dot : ascii := "."%char.

(** Drop the separators at the head of a reversed path. *)
Fixpoint drop_seps (r : list ascii) : list ascii :=
  match r with
  | a :: r' => if Ascii.eqb a slash then drop_seps r' else r
  | [] => []
  end.

(** The head of a reversed path up to its first separator. *)
Fixpoint until_sep (r : list ascii) : list ascii :=
  match r with
  | a :: r' => if Ascii.eqb a slash then [] else a :: until_sep r'
  | [] => []
  end.

(** [filepath.Base]: "." for the empty path, "/" for a path of
    separators, else the last element with trailing separators
    stripped. *)
Definition Base (path : list ascii) : list ascii :=
  match path with
  | [] => [dot]
  | _ =>
      match reverse (until_sep (drop_seps (reverse path))) with
      | [] => [slash]
      | e => e
      end
  end.

(** The loop of [filepath.Ext] over the reversed path: walk back from the
    end, stop at a separator, return from the first dot met. *)
Fixpoint ext_rev (r : list ascii) : option (list ascii) :=
  match r with
  | [] => None
  | a :: r' =>
      if Ascii.eqb a slash then None
      else if Ascii.eqb a dot then Some [dot]
      else (λ e, a :: e) <$> ext_rev r'
  end.

(** [filepath.Ext]: the suffix from the last dot of the last element, or
    the empty string. *)
Definition Ext (path : list ascii) : list ascii :=
  match ext_rev (reverse path) with
  | Some e => reverse e
  | None => []
  end.

Fixpoint has_prefix (s p : list ascii) {struct p} : bool :=
  match p, s with
  | [], _ => true
  | a :: p', b :: s' => Ascii.eqb a b && has_prefix s' p'
  | _ :: _, [] => false
  end.

(** [strings.TrimSuffix]. *)
Definition TrimSuffix (s suffix : list ascii) : list ascii :=
  if has_prefix (reverse s) (reverse suffix)
  then take (length s - length suffix) s
  else s.

End Filepath.

(** [extractLSPName] of [main], on bytes. *)
Definition extractLSPName_bytes (command : list ascii) : list ascii :=
  let baseName := Filepath.Base command in
  match Filepath.Ext baseName with
  | [] => baseName
  | ext => Filepath.TrimSuffix baseName ext
  end.

Definition extractLSPName (command : string) : string :=
  string_of_list_ascii (extractLSPName_bytes (list_ascii_of_string command)).

(** The write log only grows: the server-specific step may write to the
    child, it cannot unwrite. *)
Definition wire_append_only (w : World) : Prop :=
  ∀ c dir, ∃ more,
    wire (initializeTypescriptLanguageServer w c dir).2 = wire c ++ more.

(** Go ranges over a map in an order of its own choosing: some
    arrangement of the keys, each once. *)
Definition range_is_permutation (w : World) : Prop :=
  ∀ m, rangeKeys w m ≡ₚ (map_to_list m).*1.

(** Every key of the open-file map was built by [file_uri]. *)
Definition uri_keys (c : Client) : Prop :=
  ∀ uri, is_Some (openFiles c !! uri) → Go.HasPrefix uri "file://" = true.

(** The third write fails, the others succeed. *)
Definition flaky_world : World :=
  {| ReadFile := λ p, Some "package x";
     writeOk := λ n, if decide (n = 2%nat) then false else true;
     reply := reply good_world;
     Getpid := Getpid good_world;
     DetectLanguageID := DetectLanguageID good_world;
     rangeKeys := rangeKeys good_world;
     initializeTypescriptLanguageServer :=
       initializeTypescriptLanguageServer good_world |}.

Definition open_both (w : World) : Client :=
  (OpenFile w (OpenFile w gopls_client "/a.go").2 "/b.go").2.

(** * Properties *)

(** ** Arithmetic of [int32] *)

Lemma int32_id z : Go.MinInt32 ≤ z ≤ Go.MaxInt32 → Go.int32 z = z.
Proof.
  unfold Go.int32, Go.MinInt32, Go.MaxInt32. intros H.
  rewrite Z.mod_small; lia.
Qed.

Lemma int32_range z : Go.MinInt32 ≤ Go.int32 z ≤ Go.MaxInt32.
Proof.
  unfold Go.int32, Go.MinInt32, Go.MaxInt32.
  pose proof (Z.mod_pos_bound (z + 2147483648) 4294967296). lia.
Qed.

(** ** The write log *)

Lemma delivered_app l1 l2 : delivered (l1 ++ l2) = delivered l1 ++ delivered l2.
Proof. unfold delivered. by rewrite filter_app, fmap_app. Qed.

Lemma delivered_one m (b : bool) : delivered [(m, b)] = if b then [m] else [].
Proof. by destruct b. Qed.

Lemma delivered_nil : delivered [] = [].
Proof. reflexivity. Qed.

(** ** Projections of the setters and of [Notify] *)

Lemma Notify_ok w c m p :
  writeOk w (length (wire c)) = true →
  Notify w c m p = (None, set_wire (wire c ++ [(Notification m p, true)]) c).
Proof. intros H. unfold Notify. by rewrite H. Qed.

Lemma Notify_fail w c m p :
  writeOk w (length (wire c)) = false →
  Notify w c m p =
    (Some (WriteError (length (wire c))),
     set_wire (wire c ++ [(Notification m p, false)]) c).
Proof. intros H. unfold Notify. by rewrite H. Qed.

Lemma Notify_wire w c m p :
  wire (Notify w c m p).2 =
    wire c ++ [(Notification m p, writeOk w (length (wire c)))].
Proof. unfold Notify. by destruct (writeOk w _). Qed.

Lemma Notify_openFiles w c m p : openFiles (Notify w c m p).2 = openFiles c.
Proof. unfold Notify. by destruct (writeOk w _). Qed.

Lemma Notify_result w c m p :
  (Notify w c m p).1 =
    if writeOk w (length (wire c)) then None else Some (WriteError (length (wire c))).
Proof. unfold Notify. by destruct (writeOk w _). Qed.

(** ** Document synchroniser *)

(** C5: [OpenFile] on a file whose URI is already in the open set returns
    nil, writes nothing (so no further [didOpen]) and leaves the client,
    hence the stored version, as it was. *)
Theorem OpenFile_idempotent (w : World) (c : Client) (filepath : string)
    (fi : OpenFileInfo) :
  openFiles c !! file_uri filepath = Some fi →
  (OpenFile w c filepath).1 = None ∧
  wire (OpenFile w c filepath).2 = wire c ∧
  openFiles (OpenFile w c filepath).2 !! file_uri filepath = Some fi ∧
  (OpenFile w c filepath).2 = c.
Proof.
  intros Hopen. unfold OpenFile. cbn zeta. rewrite Hopen. done.
Qed.

Lemma OpenFile_idempotent_witness :
  let c := (OpenFile good_world gopls_client "/a.go").2 in
  sent c = [Notification "textDocument/didOpen"
              (PDidOpen {| tdURI := "file:///a.go"; LanguageID := "go";
                           tdVersion := 1; Text := "package a" |})] ∧
  (OpenFile good_world c "/a.go").1 = None ∧
  wire (OpenFile good_world c "/a.go").2 = wire c ∧
  openFiles (OpenFile good_world c "/a.go").2 !! file_uri "/a.go"
    = Some {| Version := 1; URI := "file:///a.go" |} ∧
  (OpenFile good_world c "/a.go").2 = c.
Proof.
  split; [vm_compute; reflexivity|].
  apply (OpenFile_idempotent good_world _ "/a.go"
           {| Version := 1; URI := "file:///a.go" |}).
  vm_compute. reflexivity.
Defined.

(** The state error of [NotifyChange]. *)
Lemma NotifyChange_unopened w c filepath :
  openFiles c !! file_uri filepath = None →
  NotifyChange w c filepath =
    (Some (match ReadFile w filepath with
           | Some _ => Errorf ("cannot notify change for unopened file: " +:+ filepath)
           | None => Errorw "error reading file" (OsError filepath)
           end), c).
Proof.
  intros Hclosed. unfold NotifyChange. cbn zeta.
  destruct (ReadFile w filepath); [by rewrite Hclosed | done].
Qed.

(** C4, as stated, fails: [/gone.go] is not open and cannot be read, and
    the error that comes back is the wrapped read error, not the state
    error. *)
Lemma NotifyChange_unopened_read_error_first :
  openFiles gopls_client !! file_uri "/gone.go" = None ∧
  (NotifyChange good_world gopls_client "/gone.go").1
    = Some (Errorw "error reading file" (OsError "/gone.go")) ∧
  (NotifyChange good_world gopls_client "/gone.go").1
    ≠ Some (Errorf ("cannot notify change for unopened file: " +:+ "/gone.go")).
Proof.
  split; [reflexivity|]. split; [reflexivity|]. discriminate.
Qed.

(** C4, amended: on a path whose URI is not in the open set
    [NotifyChange] fails -- with the state error when the file can be
    read, with the read error when it cannot --, writes nothing and
    returns the client untouched, open-file map included. *)
Theorem NotifyChange_unopened_fails (w : World) (c : Client) (filepath : string) :
  openFiles c !! file_uri filepath = None →
  (∃ e, (NotifyChange w c filepath).1 = Some e) ∧
  (is_Some (ReadFile w filepath) →
   (NotifyChange w c filepath).1 =
     Some (Errorf ("cannot notify change for unopened file: " +:+ filepath))) ∧
  (ReadFile w filepath = None →
   (NotifyChange w c filepath).1 =
     Some (Errorw "error reading file" (OsError filepath))) ∧
  wire (NotifyChange w c filepath).2 = wire c ∧
  openFiles (NotifyChange w c filepath).2 = openFiles c ∧
  (NotifyChange w c filepath).2 = c.
Proof.
  intros Hclosed. rewrite (NotifyChange_unopened w c filepath Hclosed). cbn.
  split; [eauto|]. split; [intros [x ->]; done|].
  split; [intros ->; done|]. done.
Qed.

Lemma NotifyChange_unopened_fails_witness :
  (NotifyChange good_world gopls_client "/a.go").1 =
    Some (Errorf "cannot notify change for unopened file: /a.go") ∧
  (NotifyChange good_world gopls_client "/a.go").2 = gopls_client.
Proof.
  pose proof (NotifyChange_unopened_fails good_world gopls_client "/a.go"
                ltac:(reflexivity)) as (_ & Hstate & _ & _ & _ & Hsame).
  split; [apply Hstate; vm_compute; eauto | exact Hsame].
Defined.

(** What [NotifyChange] does on an open, readable file. *)
Lemma NotifyChange_open w c filepath fi content :
  ReadFile w filepath = Some content →
  openFiles c !! file_uri filepath = Some fi →
  NotifyChange w c filepath =
    Notify w
      (set_openFiles
         (<[file_uri filepath :=
              {| Version := Go.int32 (Version fi + 1); URI := URI fi |}]> (openFiles c)) c)
      "textDocument/didChange"
      (PDidChange (file_uri filepath) (Go.int32 (Version fi + 1)) content).
Proof. intros Hread Hopen. unfold NotifyChange. cbn zeta. by rewrite Hread, Hopen. Qed.

(** C3, as stated, fails at the top of [int32]: the stored version
    2147483647 becomes -2147483648, which is what the notification
    carries. *)
Lemma NotifyChange_version_wraps :
  let c := client_with_a Go.MaxInt32 in
  let r := NotifyChange good_world c "/a.go" in
  openFiles c !! file_uri "/a.go" = Some {| Version := 2147483647; URI := "file:///a.go" |} ∧
  r.1 = None ∧
  openFiles r.2 !! file_uri "/a.go"
    = Some {| Version := -2147483648; URI := "file:///a.go" |} ∧
  sent r.2 = [Notification "textDocument/didChange"
                (PDidChange "file:///a.go" (-2147483648) "package a")] ∧
  ¬ (∃ fi', openFiles r.2 !! file_uri "/a.go" = Some fi' ∧
            Version fi' = 2147483647 + 1).
Proof.
  cbv zeta. repeat split; try (vm_compute; reflexivity).
  intros (fi' & Hfi & Hv).
  assert (openFiles (NotifyChange good_world (client_with_a Go.MaxInt32) "/a.go").2
            !! file_uri "/a.go"
          = Some {| Version := -2147483648; URI := "file:///a.go" |}) as H
    by (vm_compute; reflexivity).
  rewrite H in Hfi. injection Hfi as <-. cbn in Hv. lia.
Qed.

(** C3, amended: a successful [NotifyChange] on an open file replaces the
    stored version [v] by [int32 (v + 1)] -- that is [v + 1] whenever [v]
    is below 2147483647 --, touches no other entry, and writes exactly one
    [didChange] notification whose version is the new stored version. *)
Theorem NotifyChange_increments_version (w : World) (c : Client) (filepath : string)
    (fi : OpenFileInfo) :
  openFiles c !! file_uri filepath = Some fi →
  (NotifyChange w c filepath).1 = None →
  ∃ content v',
    ReadFile w filepath = Some content ∧
    v' = Go.int32 (Version fi + 1) ∧
    (Go.MinInt32 ≤ Version fi < Go.MaxInt32 → v' = Version fi + 1) ∧
    openFiles (NotifyChange w c filepath).2 =
      <[file_uri filepath := {| Version := v'; URI := URI fi |}]> (openFiles c) ∧
    wire (NotifyChange w c filepath).2 =
      wire c ++ [(Notification "textDocument/didChange"
                    (PDidChange (file_uri filepath) v' content), true)].
Proof.
  intros Hopen Hok.
  destruct (ReadFile w filepath) as [content|] eqn:Hread.
  - rewrite (NotifyChange_open w c filepath fi content Hread Hopen) in *.
    rewrite Notify_result in Hok. rewrite Notify_wire, Notify_openFiles. cbn in *.
    destruct (writeOk w (length (wire c))) eqn:Hw; [|discriminate].
    exists content, (Go.int32 (Version fi + 1)).
    split; [done|]. split; [done|].
    split; [intros Hrange; apply int32_id; unfold Go.MinInt32, Go.MaxInt32 in *; lia|].
    done.
  - unfold NotifyChange in Hok. cbn zeta in Hok. rewrite Hread in Hok. discriminate.
Qed.

Lemma NotifyChange_increments_version_witness :
  let r := NotifyChange good_world (client_with_a 1) "/a.go" in
  openFiles r.2 !! file_uri "/a.go" = Some {| Version := 2; URI := "file:///a.go" |} ∧
  sent r.2 = [Notification "textDocument/didChange"
                (PDidChange "file:///a.go" 2 "package a")].
Proof.
  cbv zeta.
  destruct (NotifyChange_increments_version good_world (client_with_a 1) "/a.go"
              {| Version := 1; URI := "file:///a.go" |}
              ltac:(vm_compute; reflexivity) ltac:(vm_compute; reflexivity))
    as (content & v' & Hread & Hv & _ & Hfiles & Hwire).
  injection Hread as <-. subst v'.
  split.
  - rewrite Hfiles. vm_compute. reflexivity.
  - unfold sent. rewrite Hwire. vm_compute. reflexivity.
Defined.

(** C10, as stated, fails at the top of [int32] for the same reason as
    C3: after the failed send the stored version is -2147483648, not
    2147483648. *)
Lemma NotifyChange_failed_send_wraps :
  let c := client_with_a Go.MaxInt32 in
  let r := NotifyChange broken_pipe_world c "/a.go" in
  r.1 = Some (WriteError 0) ∧
  sent r.2 = [] ∧
  openFiles r.2 !! file_uri "/a.go"
    = Some {| Version := -2147483648; URI := "file:///a.go" |} ∧
  ¬ (∃ fi', openFiles r.2 !! file_uri "/a.go" = Some fi' ∧
            Version fi' = 2147483647 + 1).
Proof.
  cbv zeta. repeat split; try (vm_compute; reflexivity).
  intros (fi' & Hfi & Hv).
  assert (openFiles (NotifyChange broken_pipe_world (client_with_a Go.MaxInt32) "/a.go").2
            !! file_uri "/a.go"
          = Some {| Version := -2147483648; URI := "file:///a.go" |}) as H
    by (vm_compute; reflexivity).
  rewrite H in Hfi. injection Hfi as <-. cbn in Hv. lia.
Qed.

(** C10, amended: when the [didChange] write fails on an open, readable
    file, [NotifyChange] returns the write error, nothing reaches the
    server, and the stored version is already [int32 (v + 1)] -- [v + 1]
    when [v] is below 2147483647, and in every case different from [v] --
    with no rollback; the rest of the open-file map is as before. *)
Theorem NotifyChange_failed_send_keeps_increment (w : World) (c : Client)
    (filepath content : string) (fi : OpenFileInfo) :
  ReadFile w filepath = Some content →
  openFiles c !! file_uri filepath = Some fi →
  writeOk w (length (wire c)) = false →
  (NotifyChange w c filepath).1 = Some (WriteError (length (wire c))) ∧
  sent (NotifyChange w c filepath).2 = sent c ∧
  openFiles (NotifyChange w c filepath).2 =
    <[file_uri filepath :=
        {| Version := Go.int32 (Version fi + 1); URI := URI fi |}]> (openFiles c) ∧
  Go.int32 (Version fi + 1) ≠ Version fi ∧
  (Go.MinInt32 ≤ Version fi < Go.MaxInt32 →
   Go.int32 (Version fi + 1) = Version fi + 1).
Proof.
  intros Hread Hopen Hw.
  rewrite (NotifyChange_open w c filepath fi content Hread Hopen).
  rewrite Notify_fail by (cbn; done). cbn.
  split; [done|]. split.
  - unfold sent. cbn. by rewrite delivered_app, delivered_one, app_nil_r.
  - split; [done|]. split.
    + pose proof (int32_range (Version fi + 1)) as Hr.
      destruct (decide (Version fi = 2147483647)) as [->|Hne]; [vm_compute; discriminate|].
      destruct (decide (Go.MinInt32 ≤ Version fi ≤ Go.MaxInt32)) as [Hin|Hout].
      * rewrite int32_id by (unfold Go.MinInt32, Go.MaxInt32 in *; lia). lia.
      * lia.
    + intros Hlt. apply int32_id. unfold Go.MinInt32, Go.MaxInt32 in *. lia.
Qed.

Lemma NotifyChange_failed_send_keeps_increment_witness :
  let r := NotifyChange broken_pipe_world (client_with_a 1) "/a.go" in
  r.1 = Some (WriteError 0) ∧
  sent r.2 = [] ∧
  openFiles r.2 !! file_uri "/a.go" = Some {| Version := 2; URI := "file:///a.go" |}.
Proof.
  cbv zeta.
  destruct (NotifyChange_failed_send_keeps_increment broken_pipe_world (client_with_a 1)
              "/a.go" "package a" {| Version := 1; URI := "file:///a.go" |}
              ltac:(reflexivity) ltac:(vm_compute; reflexivity) ltac:(reflexivity))
    as (Herr & Hsent & Hfiles & _ & _).
  split; [exact Herr|]. split; [exact Hsent|].
  rewrite Hfiles. vm_compute. reflexivity.
Defined.

(** ** Diagnostics cache *)




(** ** Handshake *)

(** C8, as stated, fails: a caller that supplies the empty configuration
    gets the default profile in its place. *)
Lemma getInitializationOptions_empty_config :
  getInitializationOptions (Some ∅) = default_options ∧
  getInitializationOptions (Some ∅) ≠ ∅.
Proof.
  split; [reflexivity|].
  intros H. apply (f_equal (λ m : gmap string any, m !! "codelenses")) in H.
  vm_compute in H. discriminate.
Qed.

Lemma getInitializationOptions_spec cfg :
  (∀ m, cfg = Some m → m ≠ ∅ → getInitializationOptions cfg = m) ∧
  (cfg = None ∨ cfg = Some ∅ → getInitializationOptions cfg = default_options).
Proof.
  split.
  - intros m -> Hne. unfold getInitializationOptions.
    case_decide as Hsz; [done|].
    exfalso. apply Hne. apply map_size_empty_iff. lia.
  - intros [-> | ->]; reflexivity.
Qed.

Lemma Call_wire w c m p :
  wire (Call w c m p).2 =
    wire c ++ [(Request (Go.int32 (nextID c + 1)) m p, writeOk w (length (wire c)))].
Proof.
  unfold Call, Call_start. cbn.
  destruct (writeOk w (length (wire c))); [|done].
  by destruct (reply w _ m) as [[?|?]|].
Qed.

(** Every run of the handshake starts by writing the [initialize]
    request. *)
Lemma InitializeLSPClient_wire w c dir cfg :
  wire_append_only w →
  ∃ more,
    wire (InitializeLSPClient w c dir cfg).2 =
      wire c ++
      (Request (Go.int32 (nextID c + 1)) "initialize"
         (PInitialize (initParams w dir cfg)), writeOk w (length (wire c))) :: more.
Proof.
  intros Happ. unfold InitializeLSPClient.
  pose proof (Call_wire w c "initialize" (PInitialize (initParams w dir cfg))) as HC.
  destruct (Call w c "initialize" _) as [[err|result] c1]; cbn in HC.
  { exists []. cbn [snd]. by rewrite HC. }
  pose proof (Notify_wire w c1 "initialized" PEmptyStruct) as HN.
  destruct (Notify w c1 "initialized" PEmptyStruct) as [[err|] c2]; cbn [snd] in HN.
  { eexists. cbn [snd]. rewrite HN, HC, <- app_assoc. done. }
  unfold Initialized.
  pose proof (Notify_wire w (register_handlers c2) "initialized" PInitialized) as HI.
  destruct (Notify w (register_handlers c2) "initialized" PInitialized)
    as [[err|] c4]; cbn [snd] in HI;
    change (wire (register_handlers c2)) with (wire c2) in HI;
    rewrite HN, HC, <- !app_assoc in HI.
  { eexists. cbn [snd]. rewrite HI. done. }
  destruct (Go.Contains _ _).
  - destruct (Happ c4 dir) as [more Hmore].
    destruct (initializeTypescriptLanguageServer w c4 dir) as [[err|] c5];
      cbn [snd] in *; eexists; rewrite Hmore, HI, <- !app_assoc; done.
  - eexists. cbn [snd]. rewrite HI. done.
Qed.

(** C8, amended: the [initialize] request of a handshake carries the
    caller's configuration when that is a non-empty map, and the built-in
    gopls codelenses profile when the caller passes nil or an empty map. *)
Theorem initialize_request_options (w : World) (c : Client) (dir : string)
    (cfg : option (gmap string any)) :
  wire_append_only w →
  ∃ id ok p,
    wire (InitializeLSPClient w c dir cfg).2 !! length (wire c)
      = Some (Request id "initialize" (PInitialize p), ok) ∧
    InitializationOptions p = getInitializationOptions cfg ∧
    (∀ m, cfg = Some m → m ≠ ∅ → InitializationOptions p = m) ∧
    (cfg = None ∨ cfg = Some ∅ → InitializationOptions p = default_options) ∧
    default_options = {[ "codelenses" := AMapBool default_codelenses ]}.
Proof.
  intros Happ. destruct (InitializeLSPClient_wire w c dir cfg Happ) as [more Hwire].
  eexists _, _, (initParams w dir cfg). split.
  - rewrite Hwire. rewrite lookup_app_r by lia.
    replace (length (wire c) - length (wire c))%nat with 0%nat by lia. reflexivity.
  - split; [reflexivity|]. cbn.
    destruct (getInitializationOptions_spec cfg) as [H1 H2]. done.
Qed.

Lemma good_world_append_only : wire_append_only good_world.
Proof. intros c dir. exists []. cbn. by rewrite app_nil_r. Qed.

Lemma initialize_request_options_witness :
  ∃ id ok p,
    wire (InitializeLSPClient good_world gopls_client "/ws"
            (Some {[ "formatting" := ABool true ]})).2 !! 0%nat
      = Some (Request id "initialize" (PInitialize p), ok) ∧
    InitializationOptions p = {[ "formatting" := ABool true ]}.
Proof.
  destruct (initialize_request_options good_world gopls_client "/ws"
              (Some {[ "formatting" := ABool true ]}) good_world_append_only)
    as (id & ok & p & Hreq & _ & Hcustom & _).
  exists id, ok, p. split; [exact Hreq|].
  apply Hcustom; [reflexivity|].
  intros H. apply (f_equal (λ m : gmap string any, m !! "formatting")) in H.
  vm_compute in H. discriminate.
Defined.

Lemma Call_inr w c m p r c1 :
  Call w c m p = (inr r, c1) →
  reply w (Go.int32 (nextID c + 1)) m = Some (inr r) ∧
  wire c1 = wire c ++ [(Request (Go.int32 (nextID c + 1)) m p, true)].
Proof.
  intros H. pose proof (Call_wire w c m p) as HW. rewrite H in HW. cbn [snd] in HW.
  unfold Call, Call_start in H. cbn in H.
  destruct (writeOk w (length (wire c))); [|discriminate].
  destruct (reply w _ m) as [[e|r']|]; try discriminate.
  injection H as -> _. done.
Qed.

Lemma Notify_nil w c m p c1 :
  Notify w c m p = (None, c1) → wire c1 = wire c ++ [(Notification m p, true)].
Proof.
  intros H. pose proof (Notify_wire w c m p) as HW.
  pose proof (Notify_result w c m p) as HR. rewrite H in HW, HR. cbn in HW, HR.
  destruct (writeOk w (length (wire c))); [done | discriminate].
Qed.

(** C1: every successful handshake returns the payload of the server's
    answer and writes one [initialize] request followed by the
    [initialized] notification -- but it writes that notification twice,
    once directly and once more through [Initialized] after the handlers
    are registered.  The claim's "exactly one" does not hold of any
    successful run. *)
Theorem InitializeLSPClient_notifies_initialized_twice (w : World) (c : Client)
    (dir : string) (cfg : option (gmap string any)) (result : any) (c' : Client) :
  wire_append_only w →
  InitializeLSPClient w c dir cfg = (inr result, c') →
  reply w (Go.int32 (nextID c + 1)) "initialize" = Some (inr result) ∧
  ∃ more,
    let handshake :=
      [ Request (Go.int32 (nextID c + 1)) "initialize"
          (PInitialize (initParams w dir cfg));
        Notification "initialized" PEmptyStruct;
        Notification "initialized" PInitialized ] in
    sent c' = sent c ++ handshake ++ more ∧
    count_requests "initialize" handshake = 1%nat ∧
    count_notifications "initialized" handshake = 2%nat ∧
    (2 ≤ count_notifications "initialized" (handshake ++ more))%nat.
Proof.
  intros Happ H. unfold InitializeLSPClient in H.
  destruct (Call w c "initialize" _) as [[err|r] c1] eqn:HC; [discriminate|].
  apply Call_inr in HC as [Hreply HC].
  destruct (Notify w c1 "initialized" PEmptyStruct) as [[err|] c2] eqn:HN;
    [discriminate|].
  apply Notify_nil in HN.
  unfold Initialized in H.
  destruct (Notify w (register_handlers c2) "initialized" PInitialized)
    as [[err|] c4] eqn:HI; [discriminate|].
  apply Notify_nil in HI. change (wire (register_handlers c2)) with (wire c2) in HI.
  rewrite HN, HC, <- !app_assoc in HI. cbn [app] in HI.
  assert (∃ more', wire c' = wire c4 ++ more' ∧ r = result) as (more' & Hc' & ->).
  { destruct (Go.Contains _ _).
    - destruct (Happ c4 dir) as [more' Hmore].
      destruct (initializeTypescriptLanguageServer w c4 dir) as [[err|] c5];
        [discriminate|]. injection H as -> ->. eauto.
    - injection H as -> ->. exists []. by rewrite app_nil_r. }
  split; [done|]. exists (delivered more'). cbv zeta.
  split; [|split; [reflexivity|split; [reflexivity|]]].
  - unfold sent. rewrite Hc', HI, !delivered_app. rewrite <- app_assoc. f_equal.
  - unfold count_notifications. rewrite filter_app, length_app.
    change (length (filter _ [_; _; _])) with 2%nat. lia.
Qed.

Lemma InitializeLSPClient_notifies_initialized_twice_witness :
  let r := InitializeLSPClient good_world gopls_client "/ws" None in
  r.1 = inr canned_payload ∧
  (2 ≤ count_notifications "initialized" (sent r.2))%nat ∧
  sent r.2 =
    [ Request 1 "initialize" (PInitialize (initParams good_world "/ws" None));
      Notification "initialized" PEmptyStruct;
      Notification "initialized" PInitialized ].
Proof.
  cbv zeta.
  assert (InitializeLSPClient good_world gopls_client "/ws" None
          = (inr canned_payload,
             (InitializeLSPClient good_world gopls_client "/ws" None).2)) as Hrun
    by (vm_compute; reflexivity).
  destruct (InitializeLSPClient_notifies_initialized_twice good_world gopls_client
              "/ws" None canned_payload _ good_world_append_only Hrun)
    as (_ & more & Hsent & _ & _ & Hcount).
  split; [vm_compute; reflexivity|].
  split; [rewrite Hsent; exact Hcount | vm_compute; reflexivity].
Defined.

(** ** Closing files *)

Lemma HasPrefix_cons_inv a p s :
  Go.HasPrefix s (String a p) = true →
  ∃ s', s = String a s' ∧ Go.HasPrefix s' p = true.
Proof.
  destruct s as [|b s]; [discriminate|].
  change (Go.HasPrefix (String b s) (String a p))
    with (if Ascii.eqb a b then Go.HasPrefix s p else false).
  destruct (Ascii.eqb_spec a b) as [<-|]; [eauto | discriminate].
Qed.

Lemma file_uri_trim uri :
  Go.HasPrefix uri "file://" = true → file_uri (Go.TrimPrefix uri "file://") = uri.
Proof.
  intros H. unfold Go.TrimPrefix. rewrite H. unfold file_uri.
  do 7 (apply HasPrefix_cons_inv in H as (? & -> & H)).
  reflexivity.
Qed.

Lemma file_uri_prefix p : Go.HasPrefix (file_uri p) "file://" = true.
Proof. reflexivity. Qed.

Lemma file_uri_inj p q : file_uri p = file_uri q → p = q.
Proof. unfold file_uri. cbn. by intros [=]. Qed.

(** The invariant holds at start and every synchroniser operation keeps
    it. *)
Lemma uri_keys_NewClient command : uri_keys (NewClient command).
Proof. intros uri [x Hx]. cbn in Hx. by rewrite lookup_empty in Hx. Qed.

Lemma uri_keys_OpenFile w c p : uri_keys c → uri_keys (OpenFile w c p).2.
Proof.
  intros Hc. unfold OpenFile. cbn zeta.
  destruct (openFiles c !! file_uri p); [done|].
  destruct (ReadFile w p); [|done].
  unfold Notify. destruct (writeOk w _); cbn; [|done].
  intros uri. cbn. destruct (decide (uri = file_uri p)) as [->|Hne]; [done|].
  rewrite lookup_insert_ne by done. apply Hc.
Qed.

Lemma uri_keys_CloseFile w c p : uri_keys c → uri_keys (CloseFile w c p).2.
Proof.
  intros Hc. unfold CloseFile. cbn zeta.
  destruct (openFiles c !! file_uri p); [|done].
  unfold Notify. destruct (writeOk w _); cbn; [|done].
  intros uri. cbn. destruct (decide (uri = file_uri p)) as [->|Hne].
  - rewrite lookup_delete_eq. by intros [? ?].
  - rewrite lookup_delete_ne by done. apply Hc.
Qed.

Lemma uri_keys_NotifyChange w c p : uri_keys c → uri_keys (NotifyChange w c p).2.
Proof.
  intros Hc. unfold NotifyChange. cbn zeta.
  destruct (ReadFile w p); [|done].
  destruct (openFiles c !! file_uri p) eqn:Hopen; [|done].
  intros uri. rewrite Notify_openFiles. cbn.
  destruct (decide (uri = file_uri p)) as [->|Hne]; [done|].
  rewrite lookup_insert_ne by done. apply Hc.
Qed.

(** One [CloseFile] on an open file: one write, and the entry goes
    exactly when the write went through. *)
Lemma CloseFile_open w c p fi :
  openFiles c !! file_uri p = Some fi →
  let ok := writeOk w (length (wire c)) in
  wire (CloseFile w c p).2 =
    wire c ++ [(Notification "textDocument/didClose" (PDidClose (file_uri p)), ok)] ∧
  openFiles (CloseFile w c p).2 =
    (if ok then delete (file_uri p) (openFiles c) else openFiles c) ∧
  (CloseFile w c p).1 = (if ok then None else Some (WriteError (length (wire c)))).
Proof.
  intros Hopen. unfold CloseFile. cbn zeta. rewrite Hopen.
  unfold Notify. by destruct (writeOk w _).
Qed.

Lemma delivered_length_le l : (length (delivered l) ≤ length l)%nat.
Proof. unfold delivered. rewrite length_fmap. apply length_filter. Qed.

Lemma delivered_all l :
  (∀ e, e ∈ l → e.2 = true) → length (delivered l) = length l.
Proof.
  induction l as [|[m b] l IH]; intros H; [done|].
  change ((m, b) :: l) with ([(m, b)] ++ l).
  rewrite delivered_app, delivered_one, !length_app.
  rewrite IH by (intros e He; apply H; by right).
  pose proof (H (m, b) ltac:(left)) as Hb. cbn in Hb. by subst b.
Qed.

(** The loop of [CloseAllFiles] on distinct open paths. *)
Lemma close_each_spec w l : ∀ c,
  NoDup l →
  (∀ p, p ∈ l → is_Some (openFiles c !! file_uri p)) →
  ∃ new,
    wire (close_each w c l) = wire c ++ new ∧
    length new = length l ∧
    (∀ i e, new !! i = Some e →
       e.2 = writeOk w (length (wire c) + i) ∧
       ∃ p, l !! i = Some p ∧
            e.1 = Notification "textDocument/didClose" (PDidClose (file_uri p))) ∧
    (length (delivered new) + size (openFiles (close_each w c l))
       = size (openFiles c))%nat ∧
    openFiles (close_each w c l) ⊆ openFiles c ∧
    (∀ uri, (∀ p, p ∈ l → uri ≠ file_uri p) →
       openFiles (close_each w c l) !! uri = openFiles c !! uri).
Proof.
  induction l as [|p l IH]; intros c Hnd Hopen.
  - exists []. cbn. rewrite app_nil_r. repeat split; done.
  - apply NoDup_cons in Hnd as [Hp Hnd].
    destruct (Hopen p ltac:(left)) as [fi Hfi].
    destruct (CloseFile_open w c p fi Hfi) as (Hwire & Hfiles & _).
    cbn zeta in Hwire, Hfiles.
    set (c1 := (CloseFile w c p).2) in *.
    assert (∀ q, q ∈ l → openFiles c1 !! file_uri q = openFiles c !! file_uri q)
      as Hkeep.
    { intros q Hq. rewrite Hfiles. destruct (writeOk w _); [|done].
      apply lookup_delete_ne. intros Heq. apply file_uri_inj in Heq. by subst. }
    destruct (IH c1 Hnd) as (new & Hw & Hlen & Hnew & Hcount & Hsub & Hother).
    { intros q Hq. rewrite Hkeep by done. apply Hopen. by right. }
    exists ((Notification "textDocument/didClose" (PDidClose (file_uri p)),
             writeOk w (length (wire c))) :: new).
    change (close_each w c (p :: l)) with (close_each w c1 l).
    split; [by rewrite Hw, Hwire, <- app_assoc|].
    split; [cbn; by rewrite Hlen|].
    split.
    { intros [|i] e Hi; cbn in Hi.
      - injection Hi as <-. cbn. split; [f_equal; lia | eauto].
      - destruct (Hnew i e Hi) as (Hflag & q & Hq & He).
        split; [|eauto].
        rewrite Hflag, Hwire, length_app. cbn. f_equal. lia. }
    split.
    { change (?x :: new) with ([x] ++ new).
      rewrite delivered_app, delivered_one, length_app.
      rewrite Hfiles in Hcount. destruct (writeOk w _); cbn.
      - rewrite map_size_delete_Some in Hcount by eauto.
        assert (size (openFiles c) ≠ 0%nat).
        { intros Hz. apply map_size_empty_iff in Hz. by rewrite Hz, lookup_empty in Hfi. }
        lia.
      - lia. }
    split.
    { etrans; [exact Hsub|]. rewrite Hfiles. destruct (writeOk w _); [|done].
      apply delete_subseteq. }
    intros uri Huri. rewrite Hother by (intros q Hq; apply Huri; by right).
    rewrite Hfiles. destruct (writeOk w _); [|done].
    apply lookup_delete_ne. intros Heq. by apply (Huri p ltac:(left)).
Qed.

Lemma fmap_file_uri_trim (keys : list string) :
  (∀ k, k ∈ keys → Go.HasPrefix k "file://" = true) →
  file_uri <$> (map (λ uri, Go.TrimPrefix uri "file://") keys) = keys.
Proof.
  induction keys as [|k keys IH]; intros H; [done|].
  cbn. rewrite file_uri_trim by (apply H; left).
  f_equal. apply IH. intros k' Hk'. apply H. by right.
Qed.

(** C2, as stated, fails: with two files open and the first [didClose]
    write failing, [CloseAllFiles] goes on to the second file, but the
    server gets one [didClose], not two, and one file stays in the open
    set. *)
Lemma CloseAllFiles_leaves_failed_file_open :
  let c := open_both flaky_world in
  let c' := CloseAllFiles flaky_world c in
  size (openFiles c) = 2%nat ∧
  (length (wire c') - length (wire c) = 2)%nat ∧
  count_notifications "textDocument/didClose" (sent c') = 1%nat ∧
  size (openFiles c') = 1%nat ∧
  openFiles c' ≠ ∅.
Proof.
  cbv zeta.
  assert (size (openFiles (CloseAllFiles flaky_world (open_both flaky_world))) = 1%nat)
    as Hsize by (vm_compute; reflexivity).
  split; [vm_compute; reflexivity|].
  split; [vm_compute; reflexivity|].
  split; [vm_compute; reflexivity|].
  split; [exact Hsize|].
  intros Hempty. apply (f_equal size) in Hempty.
  rewrite Hsize, map_size_empty in Hempty. discriminate Hempty.
Qed.

Lemma CloseFile_lookup_Some w c p uri fi :
  openFiles (CloseFile w c p).2 !! uri = Some fi → openFiles c !! uri = Some fi.
Proof.
  unfold CloseFile. cbn zeta. destruct (openFiles c !! file_uri p); [|done].
  unfold Notify. destruct (writeOk w _); cbn; [|done].
  intros H. apply lookup_delete_Some in H as [_ H]. done.
Qed.

Lemma close_each_lookup_Some w l : ∀ c uri fi,
  openFiles (close_each w c l) !! uri = Some fi → openFiles c !! uri = Some fi.
Proof.
  induction l as [|p l IH]; intros c uri fi H; [done|].
  cbn in H. apply IH in H. by apply CloseFile_lookup_Some in H.
Qed.

(** The loop of [CloseAllFiles], file by file: the writes are the
    [didClose] of the paths in the order of the list, and a path is gone
    from the map exactly when its write went through. *)
Lemma close_each_per_file w l : ∀ c,
  NoDup l →
  (∀ p, p ∈ l → is_Some (openFiles c !! file_uri p)) →
  wire (close_each w c l) =
    wire c ++
    imap (λ i p, (Notification "textDocument/didClose" (PDidClose (file_uri p)),
                  writeOk w (length (wire c) + i))) l ∧
  (∀ i p, l !! i = Some p →
     openFiles (close_each w c l) !! file_uri p =
       if writeOk w (length (wire c) + i) then None else openFiles c !! file_uri p).
Proof.
  induction l as [|p l IH]; intros c Hnd Hopen.
  - cbn. rewrite app_nil_r. split; [done|]. intros i q Hi. by rewrite lookup_nil in Hi.
  - apply NoDup_cons in Hnd as [Hp Hnd].
    destruct (Hopen p ltac:(left)) as [fi Hfi].
    destruct (CloseFile_open w c p fi Hfi) as (Hwire & Hfiles & _).
    cbn zeta in Hwire, Hfiles.
    change (close_each w c (p :: l)) with (close_each w (CloseFile w c p).2 l).
    set (c1 := (CloseFile w c p).2) in *.
    assert (∀ q, q ∈ l → openFiles c1 !! file_uri q = openFiles c !! file_uri q)
      as Hkeep.
    { intros q Hq. rewrite Hfiles. destruct (writeOk w _); [|done].
      apply lookup_delete_ne. intros Heq. apply file_uri_inj in Heq. by subst. }
    assert (∀ q, q ∈ l → is_Some (openFiles c1 !! file_uri q)) as Hopen1.
    { intros q Hq. rewrite Hkeep by done. apply Hopen. by right. }
    destruct (IH c1 Hnd Hopen1) as [IHw IHf].
    assert (length (wire c1) = S (length (wire c))) as Hlen1.
    { rewrite Hwire, length_app. cbn. lia. }
    split.
    + rewrite IHw, Hwire, <- app_assoc. cbn [app]. rewrite imap_cons.
      rewrite Nat.add_0_r. do 2 f_equal.
      apply imap_ext. intros i q _. cbn. rewrite length_app. cbn. do 2 f_equal. lia.
    + intros [|i] q Hi; cbn in Hi.
      * injection Hi as <-. rewrite Nat.add_0_r.
        destruct (close_each_spec w l c1 Hnd Hopen1) as (_ & _ & _ & _ & _ & _ & Hother).
        rewrite Hother.
        2:{ intros q Hq Heq. apply file_uri_inj in Heq. by subst. }
        rewrite Hfiles. destruct (writeOk w _); [apply lookup_delete_eq | done].
      * rewrite (IHf i q Hi), Hlen1.
        replace (S (length (wire c)) + i)%nat with (length (wire c) + S i)%nat by lia.
        rewrite Hkeep; [done|]. apply list_elem_of_lookup. eauto.
Qed.

(** C2, amended: [CloseAllFiles] on N open files makes exactly N writes,
    one [didClose] for each open URI, in the order in which the map is
    ranged over, and goes on past failed ones.  A file leaves the open set
    exactly when its own write went through, and no file enters the set:
    the number of [didClose] notifications the server gets plus the
    number of files still open is N.  When no write fails the server gets
    N notifications and the set is empty. *)
Theorem CloseAllFiles_best_effort (w : World) (c : Client) :
  range_is_permutation w →
  uri_keys c →
  ∃ new,
    wire (CloseAllFiles w c) = wire c ++ new ∧
    length new = size (openFiles c) ∧
    (∀ e, e ∈ new →
       ∃ uri, is_Some (openFiles c !! uri) ∧
              e.1 = Notification "textDocument/didClose" (PDidClose uri)) ∧
    (length (delivered new) + size (openFiles (CloseAllFiles w c))
       = size (openFiles c))%nat ∧
    openFiles (CloseAllFiles w c) ⊆ openFiles c ∧
    ((∀ i, (length (wire c) ≤ i < length (wire c) + size (openFiles c))%nat →
           writeOk w i = true) →
     length (delivered new) = size (openFiles c) ∧
     openFiles (CloseAllFiles w c) = ∅) ∧
    (* one write per open file: the i-th write is the didClose of the
       i-th URI of the range, and the range has each open URI once *)
    new = imap (λ i uri, (Notification "textDocument/didClose" (PDidClose uri),
                          writeOk w (length (wire c) + i)))
            (rangeKeys w (openFiles c)) ∧
    NoDup (rangeKeys w (openFiles c)) ∧
    (∀ uri, uri ∈ rangeKeys w (openFiles c) ↔ is_Some (openFiles c !! uri)) ∧
    (* a file is gone exactly when its own write went through *)
    (∀ i uri, rangeKeys w (openFiles c) !! i = Some uri →
       openFiles (CloseAllFiles w c) !! uri =
         if writeOk w (length (wire c) + i) then None else openFiles c !! uri) ∧
    (∀ uri, openFiles c !! uri = None → openFiles (CloseAllFiles w c) !! uri = None).
Proof.
  intros Hperm Hkeys. unfold CloseAllFiles.
  set (keys := rangeKeys w (openFiles c)).
  set (l := map (λ uri, Go.TrimPrefix uri "file://") keys).
  assert (∀ k, k ∈ keys ↔ is_Some (openFiles c !! k)) as Hin.
  { intros k. unfold keys. rewrite (Hperm (openFiles c)). split.
    - intros Hk. apply list_elem_of_fmap in Hk as ([k' v] & -> & Hkv).
      apply elem_of_map_to_list in Hkv. eauto.
    - intros [v Hv]. apply list_elem_of_fmap. exists (k, v). split; [done|].
      by apply elem_of_map_to_list. }
  assert (NoDup keys) as Hndk.
  { unfold keys. rewrite (Hperm (openFiles c)). apply NoDup_fst_map_to_list. }
  assert (file_uri <$> l = keys) as Hl.
  { apply fmap_file_uri_trim. intros k Hk. apply Hkeys, Hin, Hk. }
  assert (NoDup l) as Hnd.
  { apply (NoDup_fmap_1 file_uri). by rewrite Hl. }
  assert (length l = size (openFiles c)) as Hlen.
  { unfold l. rewrite length_map. unfold keys. rewrite (Hperm (openFiles c)).
    rewrite length_fmap. apply length_map_to_list. }
  assert (∀ p, p ∈ l → is_Some (openFiles c !! file_uri p)) as Hopen.
  { intros p Hp. apply Hin. rewrite <- Hl. by apply list_elem_of_fmap_2. }
  destruct (close_each_spec w l c Hnd Hopen)
    as (new & Hw & Hnewlen & Hnew & Hcount & Hsub & _).
  destruct (close_each_per_file w l c Hnd Hopen) as [Hw' Hfile].
  assert (new = imap (λ i uri, (Notification "textDocument/didClose" (PDidClose uri),
                                writeOk w (length (wire c) + i))) keys) as Hexact.
  { rewrite Hw in Hw'. apply app_inv_head in Hw'. rewrite Hw'.
    rewrite <- Hl. rewrite imap_fmap. reflexivity. }
  exists new. rewrite Hnewlen, Hlen in *.
  split; [done|]. split; [congruence|]. split.
  { intros e He. apply list_elem_of_lookup in He as [i Hi].
    destruct (Hnew i e Hi) as (_ & p & Hp & He).
    exists (file_uri p). split; [|done].
    apply Hopen. apply list_elem_of_lookup. eauto. }
  split; [done|]. split; [done|]. split.
  { intros Hall.
    assert (length (delivered new) = length new) as Hd.
    { apply delivered_all. intros e He. apply list_elem_of_lookup in He as [i Hi].
      destruct (Hnew i e Hi) as (-> & _). apply Hall.
      apply lookup_lt_Some in Hi. lia. }
    split; [lia|]. apply map_size_empty_iff. lia. }
  split; [exact Hexact|]. split; [exact Hndk|]. split; [exact Hin|]. split.
  { intros i uri Hi.
    assert (l !! i = Some (Go.TrimPrefix uri "file://")) as Hli.
    { unfold l. change (map ?f keys) with (f <$> keys).
      by rewrite list_lookup_fmap, Hi. }
    assert (file_uri (Go.TrimPrefix uri "file://") = uri) as Huri.
    { apply file_uri_trim, Hkeys, Hin. apply list_elem_of_lookup. eauto. }
    pose proof (Hfile i _ Hli) as Hf. by rewrite Huri in Hf. }
  intros uri Hnone.
  destruct (openFiles (close_each w c l) !! uri) as [fi|] eqn:Hafter; [|done].
  apply close_each_lookup_Some in Hafter. congruence.
Qed.

Lemma flaky_world_range : range_is_permutation flaky_world.
Proof. intros m. reflexivity. Qed.

Lemma CloseAllFiles_best_effort_witness :
  let c := open_both flaky_world in
  ∃ new,
    wire (CloseAllFiles flaky_world c) = wire c ++ new ∧
    length new = 2%nat ∧
    (length (delivered new) + size (openFiles (CloseAllFiles flaky_world c)) = 2)%nat.
Proof.
  cbv zeta.
  destruct (CloseAllFiles_best_effort flaky_world (open_both flaky_world)
              flaky_world_range
              (uri_keys_OpenFile flaky_world _ "/b.go"
                 (uri_keys_OpenFile flaky_world _ "/a.go"
                    (uri_keys_NewClient "/usr/bin/gopls"))))
    as (new & Hw & Hlen & _ & Hcount & _ & _).
  exists new. split; [exact Hw|].
  assert (size (openFiles (open_both flaky_world)) = 2%nat) as Hsz
    by (vm_compute; reflexivity).
  rewrite Hsz in Hlen, Hcount.
  split; [exact Hlen | exact Hcount].
Defined.

(** ** Request ids *)

Lemma run_calls_gen w evs : ∀ c log,
  Go.MinInt32 ≤ nextID c →
  (∀ id, is_Some (handlers c !! id) → id ≤ nextID c) →
  nextID c + Z.of_nat (count_starts evs) ≤ Go.MaxInt32 →
  (foldl (step_calls w) (c, log) evs).2 =
    log ++ ((λ k, (k, false)) <$> seqZ (nextID c + 1) (Z.of_nat (count_starts evs))) ∧
  request_ids (wire (foldl (step_calls w) (c, log) evs).1) =
    request_ids (wire c) ++ seqZ (nextID c + 1) (Z.of_nat (count_starts evs)).
Proof.
  induction evs as [|[m p|id] evs IH]; intros c log Hmin Hpend Hmax.
  - cbn. by rewrite !app_nil_r.
  - cbn [count_starts] in *.
    assert (Go.int32 (nextID c + 1) = nextID c + 1) as Hid
      by (apply int32_id; unfold Go.MinInt32, Go.MaxInt32 in *; lia).
    cbn [foldl step_calls]. cbn [fst snd].
    assert (bool_decide (is_Some (handlers c !! (Call_start w c m p).1.1)) = false)
      as ->.
    { apply bool_decide_eq_false. cbn. rewrite Hid. intros Hs.
      apply Hpend in Hs. lia. }
    destruct (IH (Call_start w c m p).2
                (log ++ [((Call_start w c m p).1.1, false)])) as [IH1 IH2].
    + cbn. rewrite Hid. lia.
    + cbn. rewrite Hid. intros id Hs.
      destruct (decide (id = nextID c + 1)) as [->|Hne]; [lia|].
      rewrite lookup_insert_ne in Hs by done. apply Hpend in Hs. lia.
    + cbn. rewrite Hid. lia.
    + rewrite IH1, IH2. cbn [Call_start fst snd nextID set_handlers set_nextID set_wire wire].
      rewrite Hid.
      rewrite (seqZ_cons (nextID c + 1) (Z.of_nat (S (count_starts evs)))) by lia.
      replace (Z.pred (Z.of_nat (S (count_starts evs))))
        with (Z.of_nat (count_starts evs)) by lia.
      replace (Z.succ (nextID c + 1)) with (nextID c + 1 + 1) by lia.
      split.
      * rewrite <- app_assoc. reflexivity.
      * unfold request_ids. rewrite omap_app, <- app_assoc. reflexivity.
  - cbn [count_starts foldl step_calls fst snd] in *.
    destruct (IH (Call_finish c id) log) as [IH1 IH2]; try done.
    cbn. intros id' Hs. apply Hpend.
    destruct (decide (id' = id)) as [->|Hne].
    + rewrite lookup_delete_eq in Hs. by destruct Hs.
    + by rewrite lookup_delete_ne in Hs.
Qed.

















(** ** Shutdown race *)

Module CloseRaceFacts.
Import CloseRace.

Lemma stubborn_inv_init : stubborn_inv init = true.
Proof. reflexivity. Qed.

Lemma stubborn_inv_step a s s' :
  stubborn_inv s = true → step false a s = Some s' → stubborn_inv s' = true.
Proof.
  destruct s as [m wt ch sc tf ex].
  destruct a, m, wt, ch, sc, tf, ex; cbn; intros Hinv Hstep;
    try discriminate; injection Hstep as <-; reflexivity.
Qed.

Lemma stubborn_inv_run sched : ∀ s s',
  stubborn_inv s = true → run false sched s = Some s' → stubborn_inv s' = true.
Proof.
  induction sched as [|a sched IH]; intros s s' Hinv Hrun; cbn in Hrun.
  - by injection Hrun as <-.
  - destruct (step false a s) as [s1|] eqn:Hstep; [|discriminate].
    eapply IH; [|exact Hrun]. eapply stubborn_inv_step; eauto.
Qed.

(** C7: against a child that never exits on its own, no schedule lets
    [Close] finish cleanly.  Whenever [Close] has returned, the watcher
    has panicked or stands before its own [close(forcedKill)] on the
    channel [Close] has just closed; whenever the watcher has finished,
    [Close] has not returned and its [close(forcedKill)] finds the channel
    closed.  Both closes run on the forced-kill path and the second one
    panics. *)
Theorem Close_forced_kill_double_close (sched : list action) (s : state) :
  run false sched init = Some s →
  (main s = MReturned →
     forcedKill s = ChanClosed ∧
     (watcher s = WPanicked ∨
      (watcher s = WCloseChan ∧
       ∃ s', step false Watcher s = Some s' ∧ watcher s' = WPanicked))) ∧
  (watcher s = WReturned →
     forcedKill s = ChanClosed ∧ main s ≠ MReturned ∧
     (main s = MCloseChan →
        ∃ s', step false Main s = Some s' ∧ main s' = MPanicked)) ∧
  ¬ (main s = MReturned ∧ watcher s = WReturned).
Proof.
  intros Hrun.
  pose proof (stubborn_inv_run sched init s stubborn_inv_init Hrun) as Hinv.
  destruct s as [m wt ch sc tf ex].
  destruct m, wt, ch, ex; cbn in Hinv; try discriminate Hinv; cbn;
    (split; [intros Hm | split; [intros Hw | intros [Hm Hw]]]);
    try discriminate;
    (split; [reflexivity|]);
    first
      [ left; reflexivity
      | right; split; [reflexivity|]; eexists; split; reflexivity
      | split; [discriminate|]; intros Hm;
        first [discriminate Hm | eexists; split; reflexivity] ].
Qed.

Lemma Close_forced_kill_double_close_witness :
  ∃ s, run false forced_kill_schedule init = Some s ∧
       main s = MPanicked ∧ watcher s = WReturned ∧ exited s = true ∧
       main s ≠ MReturned.
Proof.
  eexists. split; [reflexivity|]. cbn.
  destruct (Close_forced_kill_double_close forced_kill_schedule _ eq_refl)
    as (_ & Hw & _).
  destruct (Hw eq_refl) as (_ & Hne & _).
  split; [reflexivity|]. split; [reflexivity|]. split; [reflexivity|]. exact Hne.
Defined.

End CloseRaceFacts.

(** * Further properties of the synchroniser *)

Lemma IsFileOpen_true c p : IsFileOpen c p = true ↔ is_Some (openFiles c !! file_uri p).
Proof.
  unfold IsFileOpen. destruct (openFiles c !! file_uri p); split; intros H;
    try done; try (by eauto); by destruct H.
Qed.

Lemma IsFileOpen_false c p : IsFileOpen c p = false ↔ openFiles c !! file_uri p = None.
Proof. unfold IsFileOpen. by destruct (openFiles c !! file_uri p). Qed.

(** [OpenFile] that returns nil leaves the file open, and tells the
    server about it unless it was open already; the open status of every
    other path is as before. *)
Theorem OpenFile_success_opens (w : World) (c : Client) (p : string) :
  (OpenFile w c p).1 = None →
  IsFileOpen (OpenFile w c p).2 p = true ∧
  (IsFileOpen c p = false →
     openFiles (OpenFile w c p).2 !! file_uri p
       = Some {| Version := 1; URI := file_uri p |} ∧
     ∃ content,
       ReadFile w p = Some content ∧
       sent (OpenFile w c p).2 =
         sent c ++ [Notification "textDocument/didOpen"
                      (PDidOpen {| tdURI := file_uri p;
                                   LanguageID := DetectLanguageID w (file_uri p);
                                   tdVersion := 1; Text := content |})]) ∧
  (∀ q, q ≠ p → IsFileOpen (OpenFile w c p).2 q = IsFileOpen c q).
Proof.
  intros Hok. unfold OpenFile in *. cbn zeta in *.
  destruct (openFiles c !! file_uri p) as [fi|] eqn:Hopen.
  - split; [apply IsFileOpen_true; cbn; eauto|].
    split; [|done]. intros Hclosed. apply IsFileOpen_false in Hclosed. congruence.
  - destruct (ReadFile w p) as [content|]; [|discriminate].
    unfold Notify in *. destruct (writeOk w (length (wire c))); [|discriminate].
    cbn. split; [apply IsFileOpen_true; cbn; rewrite lookup_insert_eq; eauto|].
    split.
    + intros _. rewrite lookup_insert_eq. split; [done|]. exists content.
      split; [done|]. unfold sent. cbn. by rewrite delivered_app, delivered_one.
    + intros q Hq. unfold IsFileOpen. cbn.
      rewrite lookup_insert_ne; [done|]. intros Heq. apply file_uri_inj in Heq. done.
Qed.

Lemma OpenFile_success_opens_witness :
  IsFileOpen gopls_client "/a.go" = false ∧
  IsFileOpen (OpenFile good_world gopls_client "/a.go").2 "/a.go" = true.
Proof.
  split; [reflexivity|].
  apply (OpenFile_success_opens good_world gopls_client "/a.go").
  vm_compute. reflexivity.
Defined.

(** [OpenFile] that returns an error -- the file cannot be read, or the
    write to the child fails -- leaves the open-file map as it was and
    gets nothing through to the server: the file stays closed. *)
Theorem OpenFile_failure_changes_nothing (w : World) (c : Client) (p : string)
    (e : error) :
  (OpenFile w c p).1 = Some e →
  openFiles (OpenFile w c p).2 = openFiles c ∧
  sent (OpenFile w c p).2 = sent c ∧
  IsFileOpen (OpenFile w c p).2 p = false ∧
  (ReadFile w p = None →
     e = Errorw "error reading file" (OsError p) ∧ (OpenFile w c p).2 = c).
Proof.
  intros Herr. unfold OpenFile in *. cbn zeta in *.
  destruct (openFiles c !! file_uri p) as [fi|] eqn:Hopen; [discriminate|].
  destruct (ReadFile w p) as [content|].
  - unfold Notify in *. destruct (writeOk w (length (wire c))); [discriminate|].
    cbn. split; [done|]. split.
    + unfold sent. cbn. by rewrite delivered_app, delivered_one, app_nil_r.
    + split; [by apply IsFileOpen_false|]. discriminate.
  - cbn in *. injection Herr as <-. split; [done|]. split; [done|].
    split; [by apply IsFileOpen_false | done].
Qed.

Lemma OpenFile_failure_changes_nothing_witness :
  (OpenFile broken_pipe_world gopls_client "/a.go").1 = Some (WriteError 0) ∧
  openFiles (OpenFile broken_pipe_world gopls_client "/a.go").2 = ∅ ∧
  sent (OpenFile broken_pipe_world gopls_client "/a.go").2 = [].
Proof.
  assert ((OpenFile broken_pipe_world gopls_client "/a.go").1 = Some (WriteError 0))
    as Herr by (vm_compute; reflexivity).
  destruct (OpenFile_failure_changes_nothing broken_pipe_world gopls_client "/a.go"
              _ Herr) as (Hfiles & Hsent & _ & _).
  split; [exact Herr|]. split; [exact Hfiles | exact Hsent].
Defined.

(** [CloseFile] that returns nil leaves the file closed, whether it was
    open or not, and the open status of other paths alone; [CloseFile]
    that returns an error has changed neither the open-file map nor what
    the server has received. *)
Theorem CloseFile_outcomes (w : World) (c : Client) (p : string) :
  ((CloseFile w c p).1 = None →
     IsFileOpen (CloseFile w c p).2 p = false ∧
     (IsFileOpen c p = false → (CloseFile w c p).2 = c) ∧
     (IsFileOpen c p = true →
        sent (CloseFile w c p).2 =
          sent c ++ [Notification "textDocument/didClose" (PDidClose (file_uri p))])) ∧
  ((CloseFile w c p).1 ≠ None →
     openFiles (CloseFile w c p).2 = openFiles c ∧
     sent (CloseFile w c p).2 = sent c ∧
     IsFileOpen (CloseFile w c p).2 p = true) ∧
  (∀ q, q ≠ p → IsFileOpen (CloseFile w c p).2 q = IsFileOpen c q).
Proof.
  unfold CloseFile. cbn zeta.
  destruct (openFiles c !! file_uri p) as [fi|] eqn:Hopen.
  - unfold Notify. destruct (writeOk w (length (wire c))); cbn.
    + split; [intros _|split; [done|]].
      * split; [apply IsFileOpen_false; cbn; apply lookup_delete_eq|].
        split; [intros Hc; apply IsFileOpen_false in Hc; congruence|].
        intros _. unfold sent. cbn. by rewrite delivered_app, delivered_one.
      * intros q Hq. unfold IsFileOpen. cbn.
        rewrite lookup_delete_ne; [done|]. intros Heq. by apply file_uri_inj in Heq.
    + split; [discriminate|]. split; [|done]. intros _. split; [done|].
      split; [unfold sent; cbn; by rewrite delivered_app, delivered_one, app_nil_r|].
      apply IsFileOpen_true. cbn. eauto.
  - cbn. split; [intros _|split; [done|done]].
    split; [by apply IsFileOpen_false|]. split; [done|].
    intros Hc. apply IsFileOpen_true in Hc. rewrite Hopen in Hc. by destruct Hc.
Qed.

(** Opening a closed file and closing it again, both writes going
    through, brings the open-file map back to what it was; the server has
    seen one [didOpen] and then one [didClose] for the URI. *)
Theorem OpenFile_CloseFile_round_trip (w : World) (c : Client) (p content : string) :
  openFiles c !! file_uri p = None →
  ReadFile w p = Some content →
  writeOk w (length (wire c)) = true →
  writeOk w (S (length (wire c))) = true →
  let c1 := (OpenFile w c p).2 in
  (OpenFile w c p).1 = None ∧ (CloseFile w c1 p).1 = None ∧
  openFiles (CloseFile w c1 p).2 = openFiles c ∧
  sent (CloseFile w c1 p).2 =
    sent c ++ [Notification "textDocument/didOpen"
                 (PDidOpen {| tdURI := file_uri p;
                              LanguageID := DetectLanguageID w (file_uri p);
                              tdVersion := 1; Text := content |});
               Notification "textDocument/didClose" (PDidClose (file_uri p))].
Proof.
  intros Hclosed Hread Hw1 Hw2. cbv zeta.
  unfold OpenFile. cbn zeta. rewrite Hclosed, Hread.
  rewrite Notify_ok by done. cbn [fst snd].
  unfold CloseFile. cbn zeta. cbn [openFiles set_openFiles set_wire].
  rewrite lookup_insert_eq.
  rewrite Notify_ok by (cbn; rewrite length_app; cbn; by rewrite Nat.add_1_r).
  cbn [fst snd openFiles set_openFiles set_wire wire].
  split; [done|]. split; [done|]. split.
  - rewrite delete_insert_eq. by apply delete_id.
  - unfold sent. cbn [wire set_wire set_openFiles].
    rewrite !delivered_app, !delivered_one, <- app_assoc. reflexivity.
Qed.

Lemma CloseFile_outcomes_witness :
  IsFileOpen (CloseFile good_world (client_with_a 3) "/a.go").2 "/a.go" = false ∧
  IsFileOpen (CloseFile broken_pipe_world (client_with_a 3) "/a.go").2 "/a.go" = true.
Proof.
  destruct (CloseFile_outcomes good_world (client_with_a 3) "/a.go") as (Hok & _ & _).
  destruct (CloseFile_outcomes broken_pipe_world (client_with_a 3) "/a.go")
    as (_ & Herr & _).
  split.
  - apply Hok. vm_compute. reflexivity.
  - apply Herr. vm_compute. discriminate.
Defined.

Lemma OpenFile_CloseFile_round_trip_witness :
  openFiles (CloseFile good_world (OpenFile good_world gopls_client "/a.go").2 "/a.go").2
    = openFiles gopls_client.
Proof.
  apply (OpenFile_CloseFile_round_trip good_world gopls_client "/a.go" "package a");
    reflexivity.
Defined.

(** [NotifyChange] neither opens nor closes anything: whatever it
    returns, every path is open afterwards exactly if it was before. *)
Theorem NotifyChange_keeps_open_set (w : World) (c : Client) (p q : string) :
  IsFileOpen (NotifyChange w c p).2 q = IsFileOpen c q ∧
  dom (openFiles (NotifyChange w c p).2) = dom (openFiles c).
Proof.
  unfold NotifyChange. cbn zeta.
  destruct (ReadFile w p) as [content|]; [|done].
  destruct (openFiles c !! file_uri p) as [fi|] eqn:Hopen; [|done].
  unfold IsFileOpen. rewrite Notify_openFiles. cbn. split.
  - destruct (decide (file_uri q = file_uri p)) as [->|Hne].
    + by rewrite lookup_insert_eq, Hopen.
    + by rewrite lookup_insert_ne.
  - rewrite dom_insert_L.
    assert (file_uri p ∈ dom (openFiles c)) as Hin by (apply elem_of_dom; eauto).
    set_solver.
Qed.




(** ** Invariants over any sequence of synchroniser calls *)





Lemma CloseFile_rest w c p : rest_of_client (CloseFile w c p).2 = rest_of_client c.
Proof.
  unfold CloseFile. cbn zeta. destruct (openFiles c !! file_uri p); [|done].
  unfold Notify. by destruct (writeOk w _).
Qed.

Lemma close_each_rest w l : ∀ c, rest_of_client (close_each w c l) = rest_of_client c.
Proof.
  induction l as [|p l IH]; intros c; [done|].
  cbn. by rewrite IH, CloseFile_rest.
Qed.

Lemma CloseFile_wire_prefix w c p : wire c `prefix_of` wire (CloseFile w c p).2.
Proof.
  unfold CloseFile. cbn zeta. destruct (openFiles c !! file_uri p); [|done].
  unfold Notify. destruct (writeOk w _); cbn; by apply prefix_app_r.
Qed.

Lemma close_each_wire_prefix w l : ∀ c, wire c `prefix_of` wire (close_each w c l).
Proof.
  induction l as [|p l IH]; intros c; [done|].
  cbn. etrans; [apply CloseFile_wire_prefix | apply IH].
Qed.

Lemma apply_op_rest w c op :
  rest_of_client (apply_op w c op) = rest_of_client c ∧
  wire c `prefix_of` wire (apply_op w c op).
Proof.
  destruct op as [p|p|p|]; cbn [apply_op].
  - unfold OpenFile. cbn zeta.
    destruct (openFiles c !! file_uri p); [done|].
    destruct (ReadFile w p); [|done].
    unfold Notify. destruct (writeOk w _); cbn; split; try done;
      by apply prefix_app_r.
  - unfold NotifyChange. cbn zeta.
    destruct (ReadFile w p); [|done].
    destruct (openFiles c !! file_uri p); [|done].
    unfold Notify. destruct (writeOk w _); cbn; split; try done;
      by apply prefix_app_r.
  - split; [apply CloseFile_rest | apply CloseFile_wire_prefix].
  - split; [apply close_each_rest | apply close_each_wire_prefix].
Qed.

(** The synchroniser keeps to its own state: no sequence of its calls
    changes the command path, the request-id counter, the pending calls,
    either handler registry or the diagnostics cache, and what has been
    written to the child is never taken back. *)
Theorem synchroniser_frame (w : World) (c : Client) (ops : list sync_op) :
  rest_of_client (run_ops w c ops) = rest_of_client c ∧
  wire c `prefix_of` wire (run_ops w c ops) ∧
  (∀ uri, (GetFileDiagnostics (run_ops w c ops) uri).1 = (GetFileDiagnostics c uri).1).
Proof.
  assert (rest_of_client (run_ops w c ops) = rest_of_client c ∧
          wire c `prefix_of` wire (run_ops w c ops)) as [Hrest Hwire].
  { unfold run_ops. revert c. induction ops as [|op ops IH]; intros c; [done|].
    cbn. destruct (IH (apply_op w c op)) as [IH1 IH2].
    destruct (apply_op_rest w c op) as [H1 H2].
    split; [congruence | by etrans]. }
  split; [done|]. split; [done|].
  intros uri. unfold GetFileDiagnostics. cbn.
  unfold rest_of_client in Hrest. by injection Hrest as _ _ _ _ _ ->.
Qed.

(** Once [CloseAllFiles] has gone through without a failed write, a
    second call finds nothing to close: it writes nothing and returns the
    client as it is. *)
Theorem CloseAllFiles_twice (w : World) (c : Client) :
  range_is_permutation w →
  uri_keys c →
  (∀ i, writeOk w i = true) →
  openFiles (CloseAllFiles w c) = ∅ ∧
  CloseAllFiles w (CloseAllFiles w c) = CloseAllFiles w c.
Proof.
  intros Hperm Hkeys Hw.
  assert (openFiles (CloseAllFiles w c) = ∅) as Hempty.
  { unfold CloseAllFiles.
    set (keys := rangeKeys w (openFiles c)).
    set (l := map (λ uri, Go.TrimPrefix uri "file://") keys).
    assert (∀ k, k ∈ keys → is_Some (openFiles c !! k)) as Hin.
    { intros k Hk. unfold keys in Hk. rewrite (Hperm (openFiles c)) in Hk.
      apply list_elem_of_fmap in Hk as ([k' v] & -> & Hkv).
      apply elem_of_map_to_list in Hkv. eauto. }
    assert (file_uri <$> l = keys) as Hl.
    { apply fmap_file_uri_trim. intros k Hk. apply Hkeys, Hin, Hk. }
    assert (NoDup l) as Hnd.
    { apply (NoDup_fmap_1 file_uri). rewrite Hl. unfold keys.
      rewrite (Hperm (openFiles c)). apply NoDup_fst_map_to_list. }
    assert (length l = size (openFiles c)) as Hlen.
    { unfold l. rewrite length_map. unfold keys. rewrite (Hperm (openFiles c)).
      rewrite length_fmap. apply length_map_to_list. }
    destruct (close_each_spec w l c Hnd) as (new & _ & Hnewlen & Hnew & Hcount & _).
    { intros p Hp. apply Hin. rewrite <- Hl. by apply list_elem_of_fmap_2. }
    assert (length (delivered new) = length new) as Hd.
    { apply delivered_all. intros e He. apply list_elem_of_lookup in He as [i Hi].
      destruct (Hnew i e Hi) as (-> & _). apply Hw. }
    apply map_size_empty_iff. lia. }
  split; [done|].
  unfold CloseAllFiles at 1. rewrite Hempty.
  assert (rangeKeys w ∅ = []) as ->.
  { apply Permutation_nil_r. rewrite (Hperm ∅). by rewrite map_to_list_empty. }
  reflexivity.
Qed.

Lemma good_world_range : range_is_permutation good_world.
Proof. intros m. reflexivity. Qed.

Lemma CloseAllFiles_twice_witness :
  openFiles (CloseAllFiles good_world (client_with_a 1)) = ∅.
Proof.
  apply (CloseAllFiles_twice good_world (client_with_a 1) good_world_range).
  - intros uri [fi Hfi]. cbn in Hfi.
    apply lookup_singleton_Some in Hfi as [<- _]. reflexivity.
  - reflexivity.
Defined.

(** * Further properties of the handshake *)

(** The options of an [initialize] request are never empty, and feeding
    the chosen options back as the caller's configuration chooses them
    again. *)
Theorem getInitializationOptions_nonempty (cfg : option (gmap string any)) :
  getInitializationOptions cfg ≠ ∅ ∧
  (0 < size (getInitializationOptions cfg))%nat ∧
  getInitializationOptions (Some (getInitializationOptions cfg))
    = getInitializationOptions cfg.
Proof.
  assert (default_options ≠ ∅) as Hdef.
  { intros H. apply (f_equal (λ m : gmap string any, m !! "codelenses")) in H.
    vm_compute in H. discriminate. }
  assert (getInitializationOptions cfg ≠ ∅) as Hne.
  { unfold getInitializationOptions. destruct cfg as [m|]; [|done].
    case_decide as Hsz; [|done]. intros ->. rewrite map_size_empty in Hsz. lia. }
  assert (0 < size (getInitializationOptions cfg))%nat as Hpos.
  { destruct (decide (size (getInitializationOptions cfg) = 0%nat)) as [Hz|]; [|lia].
    by apply map_size_empty_iff in Hz. }
  split; [done|]. split; [done|].
  unfold getInitializationOptions at 1. case_decide; [done|lia].
Qed.

(** When the [initialize] call fails -- the request cannot be written,
    or no result comes back for it -- the handshake stops there: the
    caller gets the wrapped error, the request is the only write, no
    [initialized] notification follows and no handler is registered. *)
Theorem InitializeLSPClient_stops_on_failed_initialize (w : World) (c : Client)
    (dir : string) (cfg : option (gmap string any)) :
  writeOk w (length (wire c)) = false ∨
  (∀ r, reply w (Go.int32 (nextID c + 1)) "initialize" ≠ Some (inr r)) →
  let r := InitializeLSPClient w c dir cfg in
  (∃ e, r.1 = inl (Errorw "initialize failed" e)) ∧
  wire r.2 = wire c ++ [(Request (Go.int32 (nextID c + 1)) "initialize"
                           (PInitialize (initParams w dir cfg)),
                         writeOk w (length (wire c)))] ∧
  count_notifications "initialized" (delivered (drop (length (wire c)) (wire r.2)))
    = 0%nat ∧
  serverRequestHandlers r.2 = serverRequestHandlers c ∧
  notificationHandlers r.2 = notificationHandlers c ∧
  openFiles r.2 = openFiles c.
Proof.
  intros Hfail. cbv zeta.
  assert (∃ e, Call w c "initialize" (PInitialize (initParams w dir cfg)) =
               (inl e, Call_finish
                         (Call_start w c "initialize"
                            (PInitialize (initParams w dir cfg))).2
                         (Go.int32 (nextID c + 1)))) as [e He].
  { unfold Call. cbn [Call_start fst snd].
    destruct (writeOk w (length (wire c))) eqn:Hw; cbn [wire set_handlers set_nextID];
      rewrite Hw; [|eauto].
    destruct Hfail as [Hf|Hf]; [discriminate|].
    destruct (reply w _ "initialize") as [[e|r]|] eqn:Hr; eauto.
    by destruct (Hf r). }
  unfold InitializeLSPClient. rewrite He. cbn [fst snd].
  split; [eauto|]. cbn [Call_finish Call_start wire set_handlers set_nextID set_wire
                         serverRequestHandlers notificationHandlers openFiles snd fst].
  split; [done|]. split; [|done].
  rewrite drop_app_length.
  destruct (writeOk w (length (wire c))); reflexivity.
Qed.

Lemma InitializeLSPClient_stops_on_failed_initialize_witness :
  sent (InitializeLSPClient broken_pipe_world gopls_client "/ws" None).2 = [] ∧
  notificationHandlers (InitializeLSPClient broken_pipe_world gopls_client "/ws" None).2
    = ∅.
Proof.
  destruct (InitializeLSPClient_stops_on_failed_initialize broken_pipe_world
              gopls_client "/ws" None ltac:(left; reflexivity))
    as (_ & Hwire & _ & _ & Hn & _).
  split; [|exact Hn].
  unfold sent. rewrite Hwire. reflexivity.
Defined.

(** After a successful handshake with a server whose path does not name
    the TypeScript server, the three server-request handlers and the two
    notification handlers of lines 214-219 are registered under their
    methods, and whatever was registered under other methods is still
    there. *)
Theorem InitializeLSPClient_registers_handlers (w : World) (c : Client)
    (dir : string) (cfg : option (gmap string any)) (result : any) (c' : Client) :
  Go.Contains (Go.ToLower (CmdPath c)) "typescript-language-server" = false →
  InitializeLSPClient w c dir cfg = (inr result, c') →
  serverRequestHandlers c' !! "workspace/applyEdit" = Some HandleApplyEdit ∧
  serverRequestHandlers c' !! "workspace/configuration"
    = Some HandleWorkspaceConfiguration ∧
  serverRequestHandlers c' !! "client/registerCapability"
    = Some HandleRegisterCapability ∧
  notificationHandlers c' !! "window/showMessage" = Some HandleServerMessage ∧
  notificationHandlers c' !! "textDocument/publishDiagnostics"
    = Some HandleDiagnosticsOf ∧
  (∀ m, m ∉ ["workspace/applyEdit"; "workspace/configuration";
             "client/registerCapability"] →
        serverRequestHandlers c' !! m = serverRequestHandlers c !! m) ∧
  (∀ m, m ∉ ["window/showMessage"; "textDocument/publishDiagnostics"] →
        notificationHandlers c' !! m = notificationHandlers c !! m) ∧
  handlers c' = delete (Go.int32 (nextID c + 1)) (handlers c).
Proof.
  intros Hts H. unfold InitializeLSPClient in H.
  destruct (Call w c "initialize" _) as [[err|r] c1] eqn:HC; [discriminate|].
  assert (serverRequestHandlers c1 = serverRequestHandlers c ∧
          notificationHandlers c1 = notificationHandlers c ∧
          CmdPath c1 = CmdPath c ∧
          handlers c1 = delete (Go.int32 (nextID c + 1))
                          (<[Go.int32 (nextID c + 1) := ()]> (handlers c)))
    as (Hs1 & Hn1 & Hp1 & Hh1).
  { unfold Call in HC. cbn [Call_start fst snd] in HC.
    destruct (writeOk w _); [|discriminate].
    destruct (reply w _ _) as [[?|?]|]; try discriminate.
    injection HC as _ <-. done. }
  unfold Initialized, Notify in H.
  destruct (writeOk w (length (wire c1))); [|discriminate]. cbn [fst snd] in H.
  destruct (writeOk w _); [|discriminate]. cbn [fst snd] in H.
  cbn [CmdPath set_wire register_handlers RegisterNotificationHandler
       RegisterServerRequestHandler set_notificationHandlers
       set_serverRequestHandlers] in H.
  rewrite Hp1, Hts in H. injection H as _ <-.
  unfold register_handlers, RegisterNotificationHandler,
    RegisterServerRequestHandler.
  cbn [serverRequestHandlers notificationHandlers handlers set_wire
       set_notificationHandlers set_serverRequestHandlers].
  rewrite Hs1, Hn1, Hh1.
  split; [by rewrite !lookup_insert_ne, lookup_insert_eq by done|].
  split; [by rewrite lookup_insert_ne, lookup_insert_eq by done|].
  split; [by rewrite lookup_insert_eq|].
  split; [by rewrite lookup_insert_ne, lookup_insert_eq by done|].
  split; [by rewrite lookup_insert_eq|].
  split; [|split].
  - intros m Hm. rewrite !not_elem_of_cons in Hm. destruct Hm as (? & ? & ? & _).
    by rewrite !lookup_insert_ne by done.
  - intros m Hm. rewrite !not_elem_of_cons in Hm. destruct Hm as (? & ? & _).
    by rewrite !lookup_insert_ne by done.
  - by rewrite delete_insert_eq.
Qed.

Lemma InitializeLSPClient_registers_handlers_witness :
  serverRequestHandlers (InitializeLSPClient good_world gopls_client "/ws" None).2
    !! "workspace/applyEdit" = Some HandleApplyEdit.
Proof.
  assert (InitializeLSPClient good_world gopls_client "/ws" None
          = (inr canned_payload,
             (InitializeLSPClient good_world gopls_client "/ws" None).2)) as Hrun
    by (vm_compute; reflexivity).
  apply (InitializeLSPClient_registers_handlers good_world gopls_client "/ws" None
           canned_payload _ ltac:(vm_compute; reflexivity) Hrun).
Defined.

(** Registration is an overwrite in one registry: the handler registered
    last under a method is the one found, handlers under other methods
    and the other registry are untouched, and registrations under
    different methods can be made in either order. *)
Theorem Register_handlers_last_wins (c : Client) (m m' : string)
    (h h' : NotificationHandler) (g g' : ServerRequestHandler) :
  notificationHandlers
    (RegisterNotificationHandler (RegisterNotificationHandler c m h) m h') !! m
    = Some h' ∧
  serverRequestHandlers
    (RegisterServerRequestHandler (RegisterServerRequestHandler c m g) m g') !! m
    = Some g' ∧
  serverRequestHandlers (RegisterNotificationHandler c m h) = serverRequestHandlers c ∧
  notificationHandlers (RegisterServerRequestHandler c m g) = notificationHandlers c ∧
  (m ≠ m' →
   notificationHandlers (RegisterNotificationHandler c m h) !! m'
     = notificationHandlers c !! m' ∧
   serverRequestHandlers (RegisterServerRequestHandler c m g) !! m'
     = serverRequestHandlers c !! m' ∧
   RegisterNotificationHandler (RegisterNotificationHandler c m h) m' h'
     = RegisterNotificationHandler (RegisterNotificationHandler c m' h') m h ∧
   RegisterServerRequestHandler (RegisterNotificationHandler c m h) m' g
     = RegisterNotificationHandler (RegisterServerRequestHandler c m' g) m h).
Proof.
  unfold RegisterNotificationHandler, RegisterServerRequestHandler. cbn.
  split; [by rewrite lookup_insert_eq|]. split; [by rewrite lookup_insert_eq|].
  split; [done|]. split; [done|]. intros Hne.
  split; [by rewrite lookup_insert_ne|]. split; [by rewrite lookup_insert_ne|].
  split; [|done].
  unfold set_notificationHandlers. cbn. f_equal. by apply insert_insert_ne.
Qed.

Lemma Register_handlers_last_wins_witness :
  notificationHandlers
    (RegisterNotificationHandler gopls_client "window/showMessage" HandleServerMessage)
    !! "textDocument/publishDiagnostics" = None.
Proof.
  destruct (Register_handlers_last_wins gopls_client "window/showMessage"
              "textDocument/publishDiagnostics" HandleServerMessage HandleDiagnosticsOf
              HandleApplyEdit HandleApplyEdit) as (_ & _ & _ & _ & Hne).
  destruct (Hne ltac:(discriminate)) as (Hn & _).
  rewrite Hn. reflexivity.
Defined.

(** * Further properties of the shutdown race *)

Module CloseRaceSafety.
Import CloseRace CloseRaceInv.

Lemma safe_inv_step obedient a s s' :
  safe_inv obedient s = true → step obedient a s = Some s' →
  safe_inv obedient s' = true.
Proof.
  destruct s as [m wt ch sc tf ex].
  destruct obedient, a, m, wt, ch, sc, tf, ex; cbn; intros Hinv Hstep;
    try discriminate; injection Hstep as <-; reflexivity.
Qed.

Lemma safe_inv_run obedient sched : ∀ s s',
  safe_inv obedient s = true → run obedient sched s = Some s' →
  safe_inv obedient s' = true.
Proof.
  induction sched as [|a sched IH]; intros s s' Hinv Hrun; cbn in Hrun.
  - by injection Hrun as <-.
  - destruct (step obedient a s) as [s1|] eqn:Hstep; [|discriminate].
    eapply IH; [|exact Hrun]. eapply safe_inv_step; eauto.
Qed.

Lemma timer_fired_step obedient a s s' :
  step obedient a s = Some s' → timer_fired s' = true →
  timer_fired s = true ∨ a = TimerFires.
Proof.
  destruct s as [m wt ch sc tf ex].
  destruct a; [| | | |by right|]; left;
    destruct obedient, m, wt, ch, sc, tf, ex; cbn in *;
    try discriminate; injection H as <-; cbn in *; done.
Qed.

Lemma timer_fired_run obedient sched : ∀ s s',
  run obedient sched s = Some s' → timer_fired s' = true →
  timer_fired s = true ∨ TimerFires ∈ sched.
Proof.
  induction sched as [|a sched IH]; intros s s' Hrun Ht; cbn in Hrun.
  - injection Hrun as <-. by left.
  - destruct (step obedient a s) as [s1|] eqn:Hstep; [|discriminate].
    destruct (IH s1 s' Hrun Ht) as [H1|Hin]; [|right; by right].
    destruct (timer_fired_step obedient a s s1 Hstep H1) as [?| ->];
      [by left | right; left].
Qed.

(** Whatever the child does and however the goroutines are scheduled:
    [Close] returns only after the child is gone, with stdin and the
    channel closed; a child that never exits by itself is gone only after
    the timer has fired, since the kill sits on the timer branch; a close
    panics only in a schedule in which the timer fires; and the two
    goroutines never panic both. *)
Theorem Close_safety (obedient : bool) (sched : list action) (s : state) :
  run obedient sched init = Some s →
  (main s = MReturned →
     exited s = true ∧ stdin_closed s = true ∧ forcedKill s = ChanClosed) ∧
  (exited s = true → obedient = true ∨ TimerFires ∈ sched) ∧
  (panicked s = true → TimerFires ∈ sched) ∧
  (main s = MPanicked ∧ watcher s = WPanicked → False).
Proof.
  intros Hrun.
  pose proof (safe_inv_run obedient sched init s eq_refl Hrun) as Hinv.
  assert (timer_fired s = true → TimerFires ∈ sched) as Htimer.
  { intros Ht. destruct (timer_fired_run obedient sched init s Hrun Ht) as [H|H];
      [discriminate H | exact H]. }
  clear Hrun. destruct s as [m wt ch sc tf ex].
  destruct obedient, m, wt, ch, sc, tf, ex; cbn in Hinv; try discriminate Hinv;
    cbn in *;
    (split; [intros Hm; first [discriminate Hm | done]|]);
    (split; [intros Hex; first [discriminate Hex | left; done | right; by apply Htimer]|]);
    (split; [intros Hp; first [discriminate Hp | by apply Htimer]|]);
    intros [Hm Hw]; first [discriminate Hm | discriminate Hw].
Qed.

Lemma Close_safety_witness :
  ∃ s, run true clean_schedule init = Some s ∧
       main s = MReturned ∧ watcher s = WReturned ∧ panicked s = false ∧
       exited s = true ∧ stdin_closed s = true ∧ forcedKill s = ChanClosed.
Proof.
  eexists. split; [reflexivity|].
  destruct (Close_safety true clean_schedule _ eq_refl) as (Hret & _ & _ & _).
  split; [reflexivity|]. split; [reflexivity|]. split; [reflexivity|].
  apply Hret. reflexivity.
Defined.

(** A child that exits by itself does not rule the double close out: when
    the timer fires after the child's exit and before the caller's own
    close, the watcher closes the channel first and the caller panics. *)
Lemma late_timer_still_panics :
  ∃ s, run true late_timer_schedule init = Some s ∧
       main s = MPanicked ∧ watcher s = WReturned ∧ exited s = true.
Proof. eexists. split; [reflexivity|]. cbn. done. Qed.

End CloseRaceSafety.

(** * The configuration name of a server *)

Section ExtractName.
Import Filepath.

Lemma list_ascii_of_string_app s1 s2 :
  list_ascii_of_string (s1 +:+ s2) = list_ascii_of_string s1 ++ list_ascii_of_string s2.
Proof.
  induction s1 as [|a s1 IH]; [done|].
  change (list_ascii_of_string (String a s1 +:+ s2))
    with (a :: list_ascii_of_string (s1 +:+ s2)).
  by rewrite IH.
Qed.

Lemma list_ascii_of_string_nil s : list_ascii_of_string s = [] → s = "".
Proof. by destruct s. Qed.

Lemma until_sep_no_slash l : slash ∉ l → until_sep l = l.
Proof.
  induction l as [|a l IH]; intros H; [done|].
  apply not_elem_of_cons in H as [Hne H]. cbn.
  destruct (Ascii.eqb_spec a slash) as [->|_]; [done|]. by rewrite IH.
Qed.

Lemma until_sep_app l r : slash ∉ l → until_sep (l ++ slash :: r) = l.
Proof.
  induction l as [|a l IH]; intros H; cbn.
  - reflexivity.
  - apply not_elem_of_cons in H as [Hne H].
    destruct (Ascii.eqb_spec a slash) as [->|_]; [done|]. by rewrite IH.
Qed.

Lemma drop_seps_head a l : a ≠ slash → drop_seps (a :: l) = a :: l.
Proof. intros H. cbn. by destruct (Ascii.eqb_spec a slash). Qed.

Lemma reverse_eq_nil {A} (l : list A) : reverse l = [] → l = [].
Proof. intros H. apply (f_equal reverse) in H. rewrite reverse_involutive in H. exact H. Qed.

Lemma not_elem_of_reverse {A} (x : A) l : x ∉ l → x ∉ reverse l.
Proof. intros H. by rewrite elem_of_reverse. Qed.

Lemma Base_last_element dir name :
  name ≠ [] → slash ∉ name → Base (dir ++ slash :: name) = name.
Proof.
  intros Hne Hs. unfold Base.
  destruct (dir ++ slash :: name) as [|x xs] eqn:Hpath; [by destruct dir|].
  rewrite <- Hpath. clear Hpath.
  rewrite reverse_app, reverse_cons, <- app_assoc. cbn [app].
  destruct (reverse name) as [|a r] eqn:Hr; [by apply reverse_eq_nil in Hr|].
  assert (slash ∉ a :: r) as Hs' by (rewrite <- Hr; by apply not_elem_of_reverse).
  pose proof Hs' as Hs''. apply not_elem_of_cons in Hs'' as [Ha _].
  change ((a :: r) ++ slash :: reverse dir) with (a :: (r ++ slash :: reverse dir)).
  rewrite drop_seps_head by done.
  change (a :: (r ++ slash :: reverse dir)) with ((a :: r) ++ slash :: reverse dir).
  rewrite until_sep_app by done.
  rewrite <- Hr, reverse_involutive. by destruct name.
Qed.

Lemma Base_plain name : name ≠ [] → slash ∉ name → Base name = name.
Proof.
  intros Hne Hs. unfold Base. destruct name as [|x xs] eqn:Hn; [done|].
  rewrite <- Hn in *. clear Hn.
  destruct (reverse name) as [|a r] eqn:Hr; [by apply reverse_eq_nil in Hr|].
  assert (slash ∉ a :: r) as Hs' by (rewrite <- Hr; by apply not_elem_of_reverse).
  pose proof Hs' as Hs''. apply not_elem_of_cons in Hs'' as [Ha _].
  rewrite drop_seps_head by done. rewrite until_sep_no_slash by done.
  rewrite <- Hr, reverse_involutive. by destruct name.
Qed.

Lemma ext_rev_no_dot l : dot ∉ l → ext_rev l = None.
Proof.
  induction l as [|a l IH]; intros H; [done|].
  apply not_elem_of_cons in H as [Hne H]. cbn.
  destruct (Ascii.eqb_spec a slash); [done|].
  destruct (Ascii.eqb_spec a dot); [done|]. by rewrite IH.
Qed.

Lemma ext_rev_app l r :
  slash ∉ l → dot ∉ l → ext_rev (l ++ dot :: r) = Some (l ++ [dot]).
Proof.
  induction l as [|a l IH]; intros Hs Hd; [done|].
  apply not_elem_of_cons in Hs as [Hs1 Hs]. apply not_elem_of_cons in Hd as [Hd1 Hd].
  cbn. destruct (Ascii.eqb_spec a slash); [done|].
  destruct (Ascii.eqb_spec a dot); [done|]. by rewrite IH.
Qed.

Lemma has_prefix_app p s : has_prefix (p ++ s) p = true.
Proof. induction p as [|a p IH]; [done|]. cbn. by rewrite Ascii.eqb_refl, IH. Qed.

Lemma TrimSuffix_app stem suffix : TrimSuffix (stem ++ suffix) suffix = stem.
Proof.
  unfold TrimSuffix. rewrite reverse_app, has_prefix_app, length_app.
  apply take_app_length'. lia.
Qed.

Lemma Ext_last_dot stem ext :
  slash ∉ ext → dot ∉ ext → Ext (stem ++ dot :: ext) = dot :: ext.
Proof.
  intros Hs Hd. unfold Ext.
  rewrite reverse_app, reverse_cons, <- app_assoc. cbn [app].
  rewrite ext_rev_app by (by apply not_elem_of_reverse).
  rewrite reverse_app, reverse_involutive. reflexivity.
Qed.

Lemma extract_bytes_extension stem ext :
  slash ∉ stem → slash ∉ ext → dot ∉ ext →
  extractLSPName_bytes (stem ++ dot :: ext) = stem.
Proof.
  intros Hs1 Hs2 Hd. unfold extractLSPName_bytes. cbv zeta.
  rewrite Base_plain.
  - rewrite Ext_last_dot by done. apply TrimSuffix_app.
  - by destruct stem.
  - rewrite not_elem_of_app, not_elem_of_cons. done.
Qed.

Lemma extract_bytes_plain name :
  name ≠ [] → slash ∉ name → dot ∉ name → extractLSPName_bytes name = name.
Proof.
  intros Hne Hs Hd. unfold extractLSPName_bytes. cbv zeta.
  rewrite Base_plain by done. unfold Ext.
  by rewrite ext_rev_no_dot by (by apply not_elem_of_reverse).
Qed.

(** The directory of the command plays no part in the name its
    configuration is looked up under: [dir/name] is named as [name] is,
    and a [name] without a dot is its own configuration name. *)
Theorem extractLSPName_ignores_directory (dir name : string) :
  name ≠ "" →
  slash ∉ list_ascii_of_string name →
  extractLSPName (dir +:+ "/" +:+ name) = extractLSPName name ∧
  (dot ∉ list_ascii_of_string name → extractLSPName (dir +:+ "/" +:+ name) = name).
Proof.
  intros Hne Hs.
  assert (list_ascii_of_string name ≠ []) as Hne'
    by (intros H; by apply list_ascii_of_string_nil in H).
  assert (extractLSPName (dir +:+ "/" +:+ name) = extractLSPName name) as Heq.
  { unfold extractLSPName, extractLSPName_bytes. cbv zeta.
    rewrite !list_ascii_of_string_app. cbn [list_ascii_of_string app].
    change "/"%char with slash.
    by rewrite Base_last_element, Base_plain by done. }
  split; [done|]. intros Hd. rewrite Heq. unfold extractLSPName.
  rewrite extract_bytes_plain by done. apply string_of_list_ascii_of_string.
Qed.

Lemma extractLSPName_ignores_directory_witness :
  extractLSPName "/usr/local/bin/gopls" = "gopls".
Proof.
  apply (extractLSPName_ignores_directory "/usr/local/bin" "gopls").
  - discriminate.
  - vm_compute. intros H. repeat (apply elem_of_cons in H as [H|H]; [discriminate H|]).
    by apply elem_of_nil in H.
  - vm_compute. intros H. repeat (apply elem_of_cons in H as [H|H]; [discriminate H|]).
    by apply elem_of_nil in H.
Defined.

(** The last extension of the binary's name is cut off, and only the
    last: [stem.ext] is named [stem] whenever [ext] has no dot.  A name
    that is all extension, such as [.hidden], gets the empty name. *)
Theorem extractLSPName_strips_extension (stem ext : string) :
  slash ∉ list_ascii_of_string stem →
  slash ∉ list_ascii_of_string ext →
  dot ∉ list_ascii_of_string ext →
  extractLSPName (stem +:+ "." +:+ ext) = stem ∧
  extractLSPName ("." +:+ ext) = "".
Proof.
  intros Hs1 Hs2 Hd. unfold extractLSPName.
  rewrite !list_ascii_of_string_app. cbn [list_ascii_of_string app].
  change "."%char with dot. split.
  - rewrite extract_bytes_extension by done. apply string_of_list_ascii_of_string.
  - change (dot :: list_ascii_of_string ext) with ([] ++ dot :: list_ascii_of_string ext).
    rewrite extract_bytes_extension; [done| |done|done]. apply not_elem_of_nil.
Qed.

Lemma extractLSPName_strips_extension_witness :
  extractLSPName "clangd-15.0.exe" = "clangd-15.0".
Proof.
  apply (extractLSPName_strips_extension "clangd-15.0" "exe").
  - vm_compute. intros H. repeat (apply elem_of_cons in H as [H|H]; [discriminate H|]).
    by apply elem_of_nil in H.
  - vm_compute. intros H. repeat (apply elem_of_cons in H as [H|H]; [discriminate H|]).
    by apply elem_of_nil in H.
  - vm_compute. intros H. repeat (apply elem_of_cons in H as [H|H]; [discriminate H|]).
    by apply elem_of_nil in H.
Defined.

End ExtractName.
